(** * NoGo GTP engine: the exact solver of [gtp_connection.py]

    A shallow embedding of the notation codec ([point_to_coord],
    [format_point], [move_to_coord]), of the memoised boolean negamax
    search ([boolean_negamax_tt], [storeResult]) and of the [solve]
    command ([solve_cmd], [signal_handler]) of
    [assignment2/gtp_connection.py], with the properties the
    specification states about them.

    Python integers are [Z]; strings are [string] (GTP is an ASCII
    protocol, so a character is an [ascii]); mutable objects (the board,
    the winning-move trail, the transposition table) are threaded as an
    explicit state; a raised exception is a constructor of the result. *)

From Stdlib Require Import ZArith String Ascii List Bool Lia.
From stdpp Require Import gmap list strings.

Open Scope Z_scope.

(** ** Exceptions and results *)

(** The exception classes the module raises or lets through.  All of them
    derive from Python's [Exception]. *)
Inductive exn : Type :=
| ValueError (msg : string)
| IndexError
| TypeError
| AssertionError
| Exception (msg : string).

(** Result of a function without side effects on the modelled state. *)
Inductive result (A : Type) : Type :=
| Ok (a : A)
| Raise (e : exn).
Arguments Ok {A} a.
Arguments Raise {A} e.

(** ** Python string and integer primitives *)

Module Py.

Definition code (c : ascii) : Z := Z.of_N (N_of_ascii c).

Definition chr (n : Z) : ascii := ascii_of_N (Z.to_N n).

(** [str.lower] on ASCII text; a character above 127 is left as it is. *)
Definition lower_char (c : ascii) : ascii :=
  if (65 <=? code c) && (code c <=? 90) then chr (code c + 32) else c.

Fixpoint lower (s : string) : string :=
  match s with
  | EmptyString => EmptyString
  | String c r => String (lower_char c) (lower r)
  end.

(** [seq[i]] with Python's negative indices; [None] is an [IndexError]. *)
Definition index {A : Type} (l : list A) (i : Z) : option A :=
  let n := Z.of_nat (length l) in
  if i <? 0
  then (if i + n <? 0 then None else l !! Z.to_nat (i + n))
  else l !! Z.to_nat i.

Definition str_index (s : string) (i : Z) : option ascii :=
  index (list_ascii_of_string s) i.

(** [str(n)] for an integer: decimal digits, with a minus sign. *)
Fixpoint digits (fuel : nat) (n : Z) (acc : string) : string :=
  match fuel with
  | O => acc
  | S fuel' =>
      let acc' := String (chr (48 + n mod 10)) acc in
      if n <? 10 then acc' else digits fuel' (n / 10) acc'
  end.

Definition str (n : Z) : string :=
  if n <? 0
  then String "-" (digits (S (Z.to_nat (Z.log2 (- n)))) (- n) EmptyString)
  else digits (S (Z.to_nat (Z.log2 n))) n EmptyString.

(** The characters [int()] strips around a numeral. *)
Definition is_space (c : ascii) : bool :=
  ((9 <=? code c) && (code c <=? 13))
  || ((28 <=? code c) && (code c <=? 32)).

Definition is_digit (c : ascii) : bool :=
  (48 <=? code c) && (code c <=? 57).

Fixpoint lstrip (l : list ascii) : list ascii :=
  match l with
  | c :: r => if is_space c then lstrip r else l
  | [] => []
  end.

Definition strip (l : list ascii) : list ascii :=
  rev (lstrip (rev (lstrip l))).

(** Digits of a numeral; a single underscore may separate two digits. *)
Fixpoint int_digits (acc : Z) (after_digit : bool) (l : list ascii)
  : option Z :=
  match l with
  | [] => if after_digit then Some acc else None
  | c :: r =>
      if is_digit c then int_digits (10 * acc + (code c - 48)) true r
      else if Ascii.eqb c "_"
           then (if after_digit then int_digits acc false r else None)
           else None
  end.

(** [int(s)] in base ten on ASCII text: blanks around the numeral, a sign,
    decimal digits; [None] is a [ValueError]. *)
Definition int (s : string) : option Z :=
  match strip (list_ascii_of_string s) with
  | c :: r =>
      if Ascii.eqb c "-" then Z.opp <$> int_digits 0 false r
      else if Ascii.eqb c "+" then int_digits 0 false r
      else int_digits 0 false (c :: r)
  | [] => None
  end.

(** [divmod(a, b)] with Python's floor division. *)
Definition divmod (a b : Z) : Z * Z := (a / b, a mod b).

End Py.

(** ** Constants of [board_util] *)

(** Modelled from the spec: the cell state EMPTY of [board_util.py],
    which is not part of the sources ("a grid of cell states {EMPTY,
    BLACK, WHITE, BORDER}"). *)
Definition EMPTY : Z := 0.

(** Modelled from the spec: the cell state and colour BLACK of
    [board_util.py].  [solve_cmd] indexes [[None, "b", "w"]] with the side
    to move, which fixes the number. *)
Definition BLACK : Z := 1.

(** Modelled from the spec: the cell state and colour WHITE of
    [board_util.py], the index of "w" in [[None, "b", "w"]]. *)
Definition WHITE : Z := 2.

(** Modelled from the spec: the cell state BORDER of [board_util.py], the
    cells around the grid. *)
Definition BORDER : Z := 3.

(** Modelled from the spec: the constant MAXSIZE of [board_util.py], the
    "supported board-size ceiling (25)". *)
Definition MAXSIZE : Z := 25.

(** Modelled from the spec: the sentinel PASS of [board_util.py].  It is
    one Python value used both as a point and as a coordinate: the [None]
    of either option type. *)
Definition PASS {A : Type} : option A := None.

Definition point : Type := option Z.
Definition coord : Type := option (Z * Z).

(** ** Notation codec *)

(** Transforms a point given as board array index to the (row, col)
    coordinate representation; PASS is not transformed. *)
Definition point_to_coord (p : point) (boardsize : Z) : coord :=
  match p with
  | None => PASS
  | Some pt =>
      let NS := boardsize + 1 in
      Some (Py.divmod pt NS)
  end.

Definition column_letters : string := "ABCDEFGHJKLMNOPQRSTUVWXYZ".

(** Returns move coordinates as a string such as "A1", or "PASS". *)
Definition format_point (move : coord) : result string :=
  if negb (MAXSIZE <=? 25) then Raise AssertionError
  else
    match move with
    | None => Ok "PASS"%string
    | Some (row, col) =>
        if negb ((0 <=? row) && (row <? MAXSIZE))
           || negb ((0 <=? col) && (col <? MAXSIZE))
        then Raise (ValueError EmptyString)
        else
          match Py.str_index column_letters (col - 1) with
          | Some letter => Ok (String letter (Py.str row))
          | None => Raise IndexError
          end
    end.

(** The two errors of [move_to_coord] that carry the text. *)
Definition invalid_point (s : string) : exn :=
  ValueError ("invalid point: '" +:+ s +:+ "'").

Definition point_off_board (s : string) : exn :=
  ValueError ("point off board: '" +:+ s +:+ "'").

(** Converts a string representing a point, as specified by GTP, to a
    pair of coordinates (row, col) in range 1 .. board_size; raises
    [ValueError] if the string is invalid. *)
Definition move_to_coord (point_str : string) (board_size : Z) : result coord :=
  if negb ((2 <=? board_size) && (board_size <=? MAXSIZE))
  then Raise (ValueError "board_size out of range")
  else
    let s := Py.lower point_str in
    if String.eqb s "pass" then Ok PASS
    else
      match s with
      | EmptyString => Raise (invalid_point s)
      | String col_c rest =>
          if negb (("a" <=? col_c)%char && (col_c <=? "z")%char)
             || Ascii.eqb col_c "i"
          then Raise (invalid_point s)
          else
            let col := Py.code col_c - Py.code "a" in
            let col := if (col_c <? "i")%char then col + 1 else col in
            match Py.int rest with
            | None => Raise (invalid_point s)
            | Some row =>
                if row <? 1 then Raise (invalid_point s)
                else if negb ((col <=? board_size) && (row <=? board_size))
                     then Raise (point_off_board s)
                     else Ok (Some (row, col))
            end
      end.

(** ** Finite enumerations used to check the codec *)

(** The integers [lo, lo + n). *)
Definition Zrange (lo : Z) (n : nat) : list Z :=
  map (fun i => lo + Z.of_nat i) (seq 0 n).

Definition all_ascii : list ascii := map ascii_of_nat (seq 0 256).

(** [format_point] then [move_to_coord] on one coordinate and board size. *)
Definition round_trip_coord (n row col : Z) : bool :=
  match format_point (Some (row, col)) with
  | Ok s =>
      match move_to_coord s n with
      | Ok (Some (row', col')) => (row' =? row) && (col' =? col)
      | _ => false
      end
  | Raise _ => false
  end.

(** [move_to_coord] then [format_point] on the string made of [letter] and
    the decimal numeral of [row]; vacuous when the string is rejected or
    names row or column 25. *)
Definition round_trip_text (n : Z) (letter : ascii) (row : Z) : bool :=
  let s := String letter (Py.str row) in
  match move_to_coord s n with
  | Ok (Some (row', col')) =>
      if (row' <=? 24) && (col' <=? 24)
      then match format_point (Some (row', col')) with
           | Ok t => String.eqb (Py.lower t) (Py.lower s)
           | Raise _ => false
           end
      else true
  | _ => true
  end.

(** ** The board object *)

(** Modelled from the spec: the [GoBoard] class is not part of the
    sources.  The record holds the attributes the module reads and writes:
    [size], the flat array [board] of cell states, [current_player],
    [last_move] and [last2_move].  The point of row [r] and column [c],
    both counted from 1, is the index [r * (size + 1) + c]. *)
Record GoBoard : Type := mkGoBoard {
  size : Z;
  board : list Z;
  current_player : Z;
  last_move : point;
  last2_move : point
}.

(** Modelled from the spec: the attribute [board.NS], the distance
    between two rows of the flat array. *)
Definition NS (b : GoBoard) : Z := size b + 1.

(** Modelled from the spec: [GoBoardUtil.opponent], "the opponent's
    color". *)
Definition opponent (color : Z) : Z := WHITE + BLACK - color.

(** Modelled from the spec: [board.set_point(point, color)] writes one
    cell ("reverting the cell that was written"). *)
Definition set_point (b : GoBoard) (p : Z) (color : Z) : GoBoard :=
  mkGoBoard (size b) (<[Z.to_nat p := color]> (board b))
            (current_player b) (last_move b) (last2_move b).

(** The assignment [board.last_move = m]. *)
Definition set_last_move (b : GoBoard) (m : point) : GoBoard :=
  mkGoBoard (size b) (board b) (current_player b) m (last2_move b).

(** The assignment [board.last2_move = m]. *)
Definition set_last2_move (b : GoBoard) (m : point) : GoBoard :=
  mkGoBoard (size b) (board b) (current_player b) (last_move b) m.

(** The assignment [board.current_player = color]. *)
Definition set_current_player (b : GoBoard) (color : Z) : GoBoard :=
  mkGoBoard (size b) (board b) color (last_move b) (last2_move b).

(** Modelled from the spec: [board.copy()], "a private copy of the live
    board".  A value is its own private copy. *)
Definition copy (b : GoBoard) : GoBoard := b.

(** Modelled from the spec: the board a successful [play_move(p, color)]
    leaves behind, with the stone on "the single modified cell", the move
    history shifted and the turn passed on. *)
Definition played (b : GoBoard) (p : Z) (color : Z) : GoBoard :=
  mkGoBoard (size b) (<[Z.to_nat p := color]> (board b))
            (opponent color) (Some p) (last_move b).

(** Number of empty points of the board. *)
Definition count_empty (b : GoBoard) : nat :=
  length (filter (fun cell => cell = EMPTY) (board b)).

(** The operations of the Board abstraction the solver calls:
    [board.hash_code()], [board.play_move(point, color)], which returns
    whether the move was legal together with the board it leaves, and
    [GoBoardUtil.generate_legal_moves(board, color)]. *)
Class BoardOps : Type := {
  hash_code : GoBoard -> Z;
  play_move : GoBoard -> Z -> Z -> bool * GoBoard;
  generate_legal_moves : GoBoard -> Z -> list Z
}.

(** What the solver relies on: a legal move puts a stone of a player on a
    point that was empty and changes nothing else than that cell and the
    three bookkeeping attributes; a rejected move leaves the board as it
    was. *)
Class BoardLaws `{BoardOps} : Prop := {
  play_move_legal : forall b p color b',
    play_move b p color = (true, b') ->
    0 <= p /\ board b !! Z.to_nat p = Some EMPTY /\ color <> EMPTY
    /\ b' = played b p color;
  play_move_illegal : forall b p color b',
    play_move b p color = (false, b') -> b' = b
}.

(** ** Transposition table *)

(** Modelled from the spec: the class of [transposition_table.py], which
    is not part of the sources, "a cache mapping position hash to
    previously computed boolean result". *)
Abbreviation TranspositionTable := (gmap Z bool).

(** Modelled from the spec: "lookup(hash) -> Optional<bool>". *)
Definition tt_lookup (t : TranspositionTable) (h : Z) : option bool := t !! h.

(** Modelled from the spec: "store(hash, value) -> value"; the value
    returned is the one given, see [storeResult]. *)
Definition tt_store (t : TranspositionTable) (h : Z) (v : bool)
  : TranspositionTable := <[h := v]> t.

(** Modelled from the spec: "clear() resets to empty". *)
Definition tt_clear (t : TranspositionTable) : TranspositionTable := ∅.

(** ** The search *)

(** The objects one search works on: the list [args] of
    [boolean_negamax_tt], that is the board, the winning-move trail and
    the transposition table, and the alarm installed by [solve_cmd].  The
    alarm is counted in calls of [boolean_negamax_tt]: [Some k] goes off
    at the entry of the call after the next [k]; [None] is no alarm. *)
Record search : Type := mkSearch {
  s_board : GoBoard;
  winning_moves : list string;
  s_tt : TranspositionTable;
  alarm : option nat
}.

(** The state with another board, and with another alarm. *)
Definition with_board (s : search) (b : GoBoard) : search :=
  mkSearch b (winning_moves s) (s_tt s) (alarm s).

Definition with_alarm (s : search) (a : option nat) : search :=
  mkSearch (s_board s) (winning_moves s) (s_tt s) a.

(** [winning_moves.append(text)]. *)
Definition append_move (s : search) (text : string) : search :=
  mkSearch (s_board s) (winning_moves s ++ [text]) (s_tt s) (alarm s).

(** How a call ends: it returns a value, it is left by an exception, or
    the model ran out of fuel.  In each of the first two the state is the
    one the mutable objects are left in. *)
Inductive outcome (St A : Type) : Type :=
| Returns (a : A) (s : St)
| Raises (e : exn) (s : St)
| OutOfFuel.
Arguments Returns {St A} a s.
Arguments Raises {St A} e s.
Arguments OutOfFuel {St A}.

(** The value returned, the exception raised and the state left. *)
Definition value_of {St A : Type} (o : outcome St A) : option A :=
  match o with
  | Returns a _ => Some a
  | _ => None
  end.

Definition exception_of {St A : Type} (o : outcome St A) : option exn :=
  match o with
  | Raises e _ => Some e
  | _ => None
  end.

Definition state_of {St A : Type} (o : outcome St A) : option St :=
  match o with
  | Returns _ s | Raises _ s => Some s
  | OutOfFuel => None
  end.

(** [signal_handler]: what the alarm raises when it goes off. *)
Definition signal_handler : exn := Exception "unknown".

(** Delivery of the alarm at the entry of a call. *)
Definition deliver (s : search) : outcome search unit :=
  match alarm s with
  | Some O => Raises signal_handler (with_alarm s None)
  | Some (S k) => Returns () (with_alarm s (Some k))
  | None => Returns () s
  end.

Section Solver.

Context `{BoardOps}.

(** [storeResult]: stores the result for the hash of the board and
    returns it. *)
Definition storeResult (s : search) (result : bool) : search :=
  mkSearch (s_board s) (winning_moves s)
           (tt_store (s_tt s) (hash_code (s_board s)) result) (alarm s).

(** The undo of a move: the cell is emptied and the three attributes
    saved before the move are written back. *)
Definition undo_move (b : GoBoard) (move : Z)
  (saved_last_move saved_last2_move : point) (saved_current_player : Z)
  : GoBoard :=
  set_current_player
    (set_last2_move
       (set_last_move (set_point b move EMPTY) saved_last_move)
       saved_last2_move)
    saved_current_player.

(** The loop [for move in legal_moves] of [boolean_negamax_tt], with the
    recursive call as [recurse], and the [return] after it. *)
Fixpoint explore (recurse : search -> outcome search bool)
  (legal_moves : list Z) (s : search) : outcome search bool :=
  match legal_moves with
  | [] => Returns false (storeResult s false)
  | move :: rest =>
      let b := s_board s in
      let saved_last_move := last_move b in
      let saved_last2_move := last2_move b in
      let saved_current_player := current_player b in
      let '(can_play_move, b1) := play_move b move (current_player b) in
      if negb can_play_move then explore recurse rest (with_board s b1)
      else
        match recurse (with_board s b1) with
        | Returns r s1 =>
            let success := negb r in
            let s2 := with_board s1
                        (undo_move (s_board s1) move saved_last_move
                                   saved_last2_move saved_current_player) in
            if success then
              let move_coord := point_to_coord (Some move) (size (s_board s2)) in
              match format_point move_coord with
              | Ok move_as_string =>
                  Returns true
                    (storeResult (append_move s2 (Py.lower move_as_string)) true)
              | Raise e => Raises e s2
              end
            else explore recurse rest s2
        | Raises e s1 => Raises e s1
        | OutOfFuel => OutOfFuel
        end
  end.

(** [boolean_negamax_tt]: the table lookup, the two tests of the end of
    the game, then the moves.  [fuel] bounds the depth of the recursion. *)
Fixpoint boolean_negamax_tt (fuel : nat) (s : search) : outcome search bool :=
  match fuel with
  | O => OutOfFuel
  | S fuel' =>
      match deliver s with
      | Returns _ s =>
          let b := s_board s in
          match tt_lookup (s_tt s) (hash_code b) with
          | Some result => Returns result s
          | None =>
              let legal_moves := generate_legal_moves b (current_player b) in
              let opp_legal_moves :=
                generate_legal_moves b (opponent (current_player b)) in
              if (length legal_moves =? 0)%nat then
                Returns false (storeResult s false)
              else if (length opp_legal_moves =? 0)%nat then
                Returns true (storeResult s true)
              else explore (boolean_negamax_tt fuel') legal_moves s
          end
      | Raises e s => Raises e s
      | OutOfFuel => OutOfFuel
      end
  end.

(** Fuel that covers every line of play from a board: one call for each
    stone that can still be placed, and the first one. *)
Definition search_fuel (b : GoBoard) : nat := S (count_empty b).

(** ** The [solve] command *)

(** The connection object: the live board [self.board], [self.timelimit]
    in seconds, the alarm of the process ([None] when none is pending,
    counted like [alarm]) and what was written to standard output. *)
Record GtpConnection : Type := mkGtpConnection {
  live_board : GoBoard;
  timelimit : nat;
  pending_alarm : option nat;
  stdout : list string
}.

(** Calls of [boolean_negamax_tt] the machine makes in one second. *)
Context (calls_per_second : nat).

(** [signal.alarm(seconds)]: zero cancels the alarm and installs none. *)
Definition signal_alarm (seconds : nat) : option nat :=
  match seconds with
  | O => None
  | S _ => Some (seconds * calls_per_second)%nat
  end.

(** The line feed. *)
Definition newline : string := String (Py.chr 10) EmptyString.

(** [respond]: writes "= response" and an empty line. *)
Definition respond (c : GtpConnection) (response : string) : GtpConnection :=
  mkGtpConnection (live_board c) (timelimit c) (pending_alarm c)
    (stdout c ++ ["= " +:+ response +:+ newline +:+ newline]).

(** The alarm of the process set to [a]. *)
Definition with_pending_alarm (c : GtpConnection) (a : option nat)
  : GtpConnection :=
  mkGtpConnection (live_board c) (timelimit c) a (stdout c).

(** [len(args) == 0 or (len(args) > 0 and args[0] != "genmove")]. *)
Definition answers (args : list string) : bool :=
  match args with
  | [] => true
  | a :: _ => negb (String.eqb a "genmove")
  end.

(** The table [int_to_color] of [solve_cmd]. *)
Definition int_to_color : list (option string) :=
  [None; Some "b"%string; Some "w"%string].

(** [str(x)] of an entry of [int_to_color], as [format] prints it. *)
Definition format_color (x : option string) : string :=
  match x with
  | Some text => text
  | None => "None"
  end.

(** [solve_cmd]: arms the alarm, runs the search on a copy of the live
    board inside [try], and answers.  The value is the one returned: the
    winning move or [None]. *)
Definition solve_cmd (args : list string) (c : GtpConnection)
  : outcome GtpConnection (option string) :=
  let winning_moves0 : list string := [] in
  let tt0 := tt_clear ∅ in
  let c := with_pending_alarm c (signal_alarm (timelimit c)) in
  let start := mkSearch (copy (live_board c)) winning_moves0 tt0
                        (pending_alarm c) in
  match boolean_negamax_tt (search_fuel (live_board c)) start with
  | OutOfFuel => OutOfFuel
  | Raises _ s =>
      (* except Exception *)
      let c := with_pending_alarm c (alarm s) in
      Returns None (if answers args then respond c "unknown" else c)
  | Returns solvedForToPlay s =>
      let c := with_pending_alarm c (alarm s) in
      if solvedForToPlay then
        match rev (winning_moves s) with
        | [] => Raises AssertionError c
        | move :: _ =>
            match Py.index int_to_color (current_player (live_board c)) with
            | None => Raises IndexError c
            | Some color =>
                if answers args then
                  match color with
                  | None => Raises TypeError c
                  | Some color =>
                      Returns (Some move) (respond c (color +:+ " " +:+ move))
                  end
                else Returns (Some move) c
            end
        end
      else
        match Py.index int_to_color
                (opponent (current_player (live_board c))) with
        | None => Raises IndexError c
        | Some opponent_color =>
            Returns None
              (if answers args then respond c (format_color opponent_color)
               else c)
        end
  end.

(** The search [solve_cmd] starts, on its private copy of the live board. *)
Definition solve_search (c : GtpConnection) : outcome search bool :=
  boolean_negamax_tt (search_fuel (live_board c))
    (mkSearch (copy (live_board c)) [] (tt_clear ∅)
              (signal_alarm (timelimit c))).

(** Time that passes outside [solve_cmd], measured like the alarm, while
    [start_connection] waits for or handles other commands.  A pending
    alarm that goes off then runs [signal_handler] there, where no
    [try] of the module is meant for it. *)
Definition idle (ticks : nat) (c : GtpConnection) : outcome GtpConnection unit :=
  match pending_alarm c with
  | None => Returns () c
  | Some k =>
      if (k <=? ticks)%nat
      then Raises signal_handler (with_pending_alarm c None)
      else Returns () (with_pending_alarm c (Some (k - ticks)%nat))
  end.

End Solver.

(** ** The search in the words of the specification *)

Section FirstProof.

Context `{BoardOps}.

Variable recurse : search -> outcome search bool.

(** The position the recursive call is made on: the board after the move
    was applied, when the Board accepts it. *)
Definition child (s : search) (move : Z) : option search :=
  let '(can_play_move, b1) :=
    play_move (s_board s) move (current_player (s_board s)) in
  if can_play_move then Some (with_board s b1) else None.

(** The state [s1] the recursive call left, with the snapshot taken in [s]
    restored and the cell of [move] reverted. *)
Definition restored (s : search) (move : Z) (s1 : search) : search :=
  with_board s1
    (undo_move (s_board s1) move (last_move (s_board s))
               (last2_move (s_board s)) (current_player (s_board s))).

(** [move] does not prove a win: the Board rejects it, or the recursive
    call on the resulting position returns true. *)
Inductive refutes (s : search) (move : Z) : search -> Prop :=
| refutes_rejected b1 :
    play_move (s_board s) move (current_player (s_board s)) = (false, b1) ->
    refutes s move (with_board s b1)
| refutes_answered c s1 :
    child s move = Some c ->
    recurse c = Returns true s1 ->
    refutes s move (restored s move s1).

(** The candidate moves explored one after the other, none proving a win. *)
Inductive all_refuted : list Z -> search -> search -> Prop :=
| all_refuted_nil s : all_refuted [] s s
| all_refuted_cons move rest s s' s'' :
    refutes s move s' ->
    all_refuted rest s' s'' ->
    all_refuted (move :: rest) s s''.

(** [move] proves a win: the recursive call on the resulting position
    returns false; the move's notation is recorded on the trail and true
    is stored for the position. *)
Definition proves (s : search) (move : Z) (s' : search) : Prop :=
  exists c s1 text,
    child s move = Some c
    /\ recurse c = Returns false s1
    /\ format_point
         (point_to_coord (Some move) (size (s_board (restored s move s1))))
       = Ok text
    /\ s' = storeResult (append_move (restored s move s1) (Py.lower text)) true.

(** Steps 3 and 4 of the algorithm: the answer is true at the first move
    that proves a win, the moves after it unexplored; it is false, and
    stored, when every move was explored and none proves one. *)
Definition first_proof (legal_moves : list Z) (s : search) (r : bool)
  (s' : search) : Prop :=
  if r
  then exists before move after sm,
         legal_moves = before ++ move :: after
         /\ all_refuted before s sm
         /\ proves sm move s'
  else exists sm,
         all_refuted legal_moves s sm /\ s' = storeResult sm false.

End FirstProof.

(** Every empty point of the board has a notation [format_point]
    accepts. *)
Definition printable (b : GoBoard) : Prop :=
  forall p, 0 <= p -> board b !! Z.to_nat p = Some EMPTY ->
    exists text, format_point (point_to_coord (Some p) (size b)) = Ok text.

(** Every empty cell of the array is a point of the grid: its row and
    its column are between 1 and the size. *)
Definition on_grid (b : GoBoard) : Prop :=
  forall p, 0 <= p -> board b !! Z.to_nat p = Some EMPTY ->
    1 <= p / NS b <= size b /\ 1 <= p mod NS b <= size b.

(** ** A NoGo board *)

(** Modelled from the spec: [board.py] and [board_util.py] are not part
    of the sources.  "A Go variant where captures are illegal and players
    lose when they have no legal move": a stone may be put on an empty
    point unless it takes the last liberty of a block of the opponent or
    leaves its own block without liberty.  The model is used for the
    concrete positions below. *)
Module NoGo.

(** Modelled from the spec: the state of the cell at a point; outside of
    the array it is border. *)
Definition get (cells : list Z) (p : Z) : Z :=
  if p <? 0 then BORDER else default BORDER (cells !! Z.to_nat p).

(** Modelled from the spec: the four neighbours of a point of the grid. *)
Definition neighbors (ns p : Z) : list Z := [p - 1; p + 1; p - ns; p + ns].

(** Modelled from the spec: whether the block reached from the points of
    [stack] touches an empty point, a liberty; [visited] are the stones of
    the block seen so far. *)
Fixpoint block_has_liberty (fuel : nat) (cells : list Z) (ns color : Z)
  (stack visited : list Z) : bool :=
  match fuel with
  | O => false
  | S fuel' =>
      match stack with
      | [] => false
      | p :: stack' =>
          if existsb (Z.eqb p) visited
          then block_has_liberty fuel' cells ns color stack' visited
          else
            let around := neighbors ns p in
            if existsb (fun q => get cells q =? EMPTY) around then true
            else block_has_liberty fuel' cells ns color
                   (List.filter (fun q => get cells q =? color) around ++ stack')
                   (p :: visited)
      end
  end.

(** Modelled from the spec: whether the block of the stone at [p] has a
    liberty. *)
Definition has_liberty (cells : list Z) (ns p : Z) : bool :=
  block_has_liberty (4 * length cells + 1) cells ns (get cells p) [p] [].

(** Modelled from the spec: "play(move, color) -> bool success".  A
    player's stone on an empty point is accepted unless it captures, that
    is takes the last liberty of a neighbouring block of the opponent, or
    is a suicide. *)
Definition play_move (b : GoBoard) (p color : Z) : bool * GoBoard :=
  if negb ((color =? BLACK) || (color =? WHITE)) then (false, b)
  else if negb (get (board b) p =? EMPTY) then (false, b)
  else
    let cells := <[Z.to_nat p := color]> (board b) in
    let captures :=
      existsb (fun q => (get cells q =? opponent color)
                        && negb (has_liberty cells (NS b) q))
              (neighbors (NS b) p) in
    if captures then (false, b)
    else if negb (has_liberty cells (NS b) p) then (false, b)
    else (true, played b p color).

(** Modelled from the spec: "isLegal(move, color) -> bool", tried on a
    copy. *)
Definition is_legal (b : GoBoard) (p color : Z) : bool :=
  fst (play_move (copy b) p color).

(** Modelled from the spec: the empty points, by increasing index. *)
Definition get_empty_points (b : GoBoard) : list Z :=
  List.filter (fun p => get (board b) p =? EMPTY)
              (Zrange 0 (length (board b))).

(** Modelled from the spec: "generateLegalMoves(color) ->
    sequence<Move>", the empty points on which [color] may play. *)
Definition generate_legal_moves (b : GoBoard) (color : Z) : list Z :=
  List.filter (fun p => is_legal b p color) (get_empty_points b).

(** Modelled from the spec: "a deterministic hash function of the full
    position (board contents + side to move)". *)
Definition hash_code (b : GoBoard) : Z :=
  fold_left (fun h cell => 4 * h + cell) (board b) (current_player b).

(** Modelled from the spec: the empty board of [boardsize], the points of
    the grid empty, the cells around them border, Black to move. *)
Definition empty_board (boardsize : Z) : GoBoard :=
  let ns := boardsize + 1 in
  let maxpoint := boardsize * boardsize + 3 * (boardsize + 1) in
  let cell (p : Z) :=
    if (1 <=? p / ns) && (p / ns <=? boardsize)
       && (1 <=? p mod ns) && (p mod ns <=? boardsize)
    then EMPTY else BORDER in
  mkGoBoard boardsize (map cell (Zrange 0 (Z.to_nat maxpoint))) BLACK None None.

(** Modelled from the spec: [coord_to_point(row, col, boardsize)] of
    [board_util.py], the inverse of [point_to_coord]. *)
Definition coord_to_point (row col boardsize : Z) : Z :=
  (boardsize + 1) * row + col.

(** A sequence of [play] commands, each a colour and a coordinate;
    [None] when one of them is answered "illegal move". *)
Fixpoint play_cmds (b : GoBoard) (cmds : list (Z * (Z * Z)))
  : option GoBoard :=
  match cmds with
  | [] => Some b
  | (color, (row, col)) :: rest =>
      match play_move b (coord_to_point row col (size b)) color with
      | (true, b') => play_cmds b' rest
      | (false, _) => None
      end
  end.

(** The NoGo board as the Board abstraction of the solver. *)
#[global] Instance ops : BoardOps := {
  hash_code := hash_code;
  play_move := play_move;
  generate_legal_moves := generate_legal_moves
}.

End NoGo.

(** The attributes of a board as a tuple. *)
Definition board_key (b : GoBoard) : Z * list Z * Z * option Z * option Z :=
  (size b, board b, current_player b, last_move b, last2_move b).

(** A hash without collisions: an injective code of the whole object. *)
Definition exact_hash (b : GoBoard) : Z := Z.pos (encode (board_key b)).

(** The NoGo board with that hash. *)
Definition exact_ops : BoardOps := {|
  hash_code := exact_hash;
  play_move := NoGo.play_move;
  generate_legal_moves := NoGo.generate_legal_moves
|}.

(** ** Concrete positions *)

(** A 2x2 board after Black a1, White b2, Black b1: White, to move, has
    no legal move. *)
Definition lost_2x2 : GoBoard :=
  Eval vm_compute in
    default (NoGo.empty_board 2)
      (NoGo.play_cmds (NoGo.empty_board 2)
         [(BLACK, (1, 1)); (WHITE, (2, 2)); (BLACK, (1, 2))]).

(** The moves Black a1, White b1, Black c1, White b2, Black b3, White a3
    on a 3x3 board. *)
Definition endgame_3x3_moves : list (Z * (Z * Z)) :=
  [(BLACK, (1, 1)); (WHITE, (1, 2)); (BLACK, (1, 3));
   (WHITE, (2, 2)); (BLACK, (3, 2)); (WHITE, (3, 1))].

(** The position they lead to: Black, to move, has legal moves and White
    has none. *)
Definition endgame_3x3 : GoBoard :=
  Eval vm_compute in
    default (NoGo.empty_board 3)
      (NoGo.play_cmds (NoGo.empty_board 3) endgame_3x3_moves).

(** A 25x25 board with a white stone on every point but y25 and z25, and
    Black to move. *)
Definition crowded_25x25 : GoBoard :=
  let e := NoGo.empty_board 25 in
  let y25 := NoGo.coord_to_point 25 24 25 in
  let z25 := NoGo.coord_to_point 25 25 25 in
  mkGoBoard 25
    (imap (fun i cell =>
             if (cell =? EMPTY) && negb (Z.of_nat i =? y25)
                && negb (Z.of_nat i =? z25)
             then WHITE else cell) (board e))
    BLACK (Some (NoGo.coord_to_point 25 23 25)) None.

(** A fresh search on a board: empty trail, empty table. *)
Definition fresh_search (b : GoBoard) (a : option nat) : search :=
  mkSearch b [] ∅ a.

(** The search of the empty 2x2 board, without alarm. *)
Definition empty_2x2_search : search := fresh_search (NoGo.empty_board 2) None.

(** A connection on a board on which nothing was written yet. *)
Definition connection (b : GoBoard) (seconds : nat) : GtpConnection :=
  mkGtpConnection b seconds None [].

(** ** The value of a position *)

Section Value.

Context `{BoardOps}.

(** The search without table, trail and alarm: whether the side to move
    wins, by the same three rules. *)
Fixpoint wins (fuel : nat) (b : GoBoard) : bool :=
  match fuel with
  | O => false
  | S fuel' =>
      let legal_moves := generate_legal_moves b (current_player b) in
      let opp_legal_moves :=
        generate_legal_moves b (opponent (current_player b)) in
      if (length legal_moves =? 0)%nat then false
      else if (length opp_legal_moves =? 0)%nat then true
      else existsb
             (fun move =>
                let '(can_play_move, b1) :=
                  play_move b move (current_player b) in
                can_play_move && negb (wins fuel' b1))
             legal_moves
  end.

(** The value of a position: true when the side to move wins. *)
Definition value (b : GoBoard) : bool := wins (search_fuel b) b.

(** [move] wins for the side to move of [b]: the Board accepts it and the
    position it leads to is lost for the opponent. *)
Definition winning_move (b : GoBoard) (move : Z) : bool :=
  let '(can_play_move, b1) := play_move b move (current_player b) in
  can_play_move && negb (value b1).

(** Every entry of the table is the value of the positions it stands
    for. *)
Definition sound (t : TranspositionTable) : Prop :=
  forall b v, tt_lookup t (hash_code b) = Some v -> v = value b.

(** "Hash collisions are assumed not to occur": positions with the same
    hash have the same value. *)
Definition collision_free : Prop :=
  forall b b', hash_code b = hash_code b' -> value b = value b'.

End Value.

(** * The commands around the solver *)

(** ** More Python string primitives *)

Module Text.

(** [str.upper] on ASCII text; a character above 127 is left as it is. *)
Definition upper_char (c : ascii) : ascii :=
  if (97 <=? Py.code c) && (Py.code c <=? 122)
  then Py.chr (Py.code c - 32) else c.

Fixpoint upper (s : string) : string :=
  match s with
  | EmptyString => EmptyString
  | String c r => String (upper_char c) (upper r)
  end.

(** [sep.join(l)]. *)
Fixpoint join (sep : string) (l : list string) : string :=
  match l with
  | [] => EmptyString
  | [x] => x
  | x :: r => x +:+ sep +:+ join sep r
  end.

(** [s <= t] on strings: the order of the character codes, a prefix
    first. *)
Fixpoint leb (s t : string) : bool :=
  match s, t with
  | EmptyString, _ => true
  | String _ _, EmptyString => false
  | String a s', String b t' =>
      if (a <? b)%char then true
      else if Ascii.eqb a b then leb s' t' else false
  end.

(** [list.sort()] on strings, as an insertion sort: the order is total
    and equal strings are the same string, so the sorted list does not
    depend on the algorithm. *)
Fixpoint insert_sorted (x : string) (l : list string) : list string :=
  match l with
  | [] => [x]
  | y :: r => if leb x y then x :: y :: r else y :: insert_sorted x r
  end.

Definition sort (l : list string) : list string :=
  fold_right insert_sorted [] l.

(** [s.strip(chars)] and its left half, on the list of characters. *)
Fixpoint lstrip_chars (chars l : list ascii) : list ascii :=
  match l with
  | c :: r => if existsb (Ascii.eqb c) chars then lstrip_chars chars r else l
  | [] => []
  end.

Definition strip_chars (chars l : list ascii) : list ascii :=
  rev (lstrip_chars chars (rev (lstrip_chars chars l))).

(** [re.sub("^\d+", EMPTY, s)]: the leading digits removed. *)
Fixpoint drop_digits (l : list ascii) : list ascii :=
  match l with
  | c :: r => if Py.is_digit c then drop_digits r else l
  | [] => []
  end.

(** [s.split()]: the words between runs of blanks; [word] holds the
    characters of the word being read, last first. *)
Fixpoint split_words (word l : list ascii) : list string :=
  match l with
  | [] =>
      match word with
      | [] => []
      | _ => [string_of_list_ascii (rev word)]
      end
  | c :: r =>
      if Py.is_space c then
        match word with
        | [] => split_words [] r
        | _ => string_of_list_ascii (rev word) :: split_words [] r
        end
      else split_words (c :: word) r
  end.

Definition split (s : string) : list string :=
  split_words [] (list_ascii_of_string s).

(** One hexadecimal digit, lower case. *)
Definition hex_digit (n : Z) : ascii :=
  if n <? 10 then Py.chr (48 + n) else Py.chr (87 + n).

(** [repr(s)] of ASCII text: single quotes unless the text holds a single
    quote and no double quote; the quote, the backslash and the control
    characters escaped. *)
Definition repr_char (quote c : ascii) : string :=
  if Ascii.eqb c quote || Ascii.eqb c "\"
  then String "\" (String c EmptyString)
  else if Py.code c =? 9 then "\t"
  else if Py.code c =? 10 then "\n"
  else if Py.code c =? 13 then "\r"
  else if (Py.code c <? 32) || (126 <? Py.code c)
       then String "\" (String "x" (String (hex_digit (Py.code c / 16))
                                      (String (hex_digit (Py.code c mod 16))
                                         EmptyString)))
       else String c EmptyString.

Definition repr (s : string) : string :=
  let l := list_ascii_of_string s in
  let double_quote := Py.chr 34 in
  let quote : ascii :=
    if existsb (Ascii.eqb "'") l && negb (existsb (Ascii.eqb double_quote) l)
    then double_quote else "'"%char in
  String quote
    (fold_right (fun c rest => repr_char quote c +:+ rest)
                (String quote EmptyString) l).

End Text.

(** ** Replies of a command *)

(** What leaves a command: an exception of the solver's kind, or the
    [KeyError] of a dictionary. *)
Inductive failure : Type :=
| Raised (e : exn)
| KeyError (key : string).

(** How a command ends: it returns, it is left by an exception, or the
    search in it ran out of fuel. *)
Inductive reply (A : Type) : Type :=
| Done (a : A) (c : GtpConnection)
| Failed (e : failure) (c : GtpConnection)
| Unfinished.
Arguments Done {A} a c.
Arguments Failed {A} e c.
Arguments Unfinished {A}.

(** The connection a reply leaves. *)
Definition connection_of {A : Type} (r : reply A) : option GtpConnection :=
  match r with
  | Done _ c | Failed _ c => Some c
  | Unfinished => None
  end.

(** [error]: writes "? error_msg" and an empty line. *)
Definition error (c : GtpConnection) (error_msg : string) : GtpConnection :=
  mkGtpConnection (live_board c) (timelimit c) (pending_alarm c)
    (stdout c ++ ["? " +:+ error_msg +:+ newline +:+ newline]).

(** The live board replaced: what a method of [self.board] leaves. *)
Definition with_live_board (c : GtpConnection) (b : GoBoard) : GtpConnection :=
  mkGtpConnection b (timelimit c) (pending_alarm c) (stdout c).

(** What the connection last wrote. *)
Definition last_response (c : GtpConnection) : option string :=
  last (stdout c).

(** [color_to_int]: the code of a colour name; [None] is a [KeyError]. *)
Definition color_to_int (c : string) : option Z :=
  if String.eqb c "b" then Some BLACK
  else if String.eqb c "w" then Some WHITE
  else if String.eqb c "e" then Some EMPTY
  else if String.eqb c "BORDER" then Some BORDER
  else None.

(** A handler of [self.commands]. *)
Definition handler : Type := list string -> GtpConnection -> reply unit.

(** The characters [get_cmd] strips to see whether a line is blank:
    space, carriage return and tab. *)
Definition blank_chars : list ascii := [" "%char; Py.chr 13; Py.chr 9].

(** ** The commands *)

Section Commands.

Context `{BoardOps}.

(** Calls of [boolean_negamax_tt] the machine makes in one second. *)
Variable calls_per_second : nat.

(** [self.go_engine.get_move(board, color)]: the move the engine
    proposes, a notation, or [None].  The engine is given to the
    connection when it is made. *)
Variable get_move : GoBoard -> Z -> option string.

(** [board.is_legal(point, color)] of the Board abstraction. *)
Variable is_legal : GoBoard -> Z -> Z -> bool.

(** [board.row_start(row)] of the Board abstraction. *)
Variable row_start : GoBoard -> Z -> Z.

(** [coord_to_point(row, col, boardsize)] of [board_util], as [genmove_cmd]
    writes it out: [board.NS * row + col]. *)
Definition coord_to_point (row col boardsize : Z) : Z :=
  (boardsize + 1) * row + col.

(** [gogui_rules_side_to_move_cmd]. *)
Definition gogui_rules_side_to_move_cmd (args : list string)
  (c : GtpConnection) : reply unit :=
  let color :=
    if current_player (live_board c) =? BLACK then "black" else "white" in
  Done () (respond c color).

(** [gogui_rules_board_size_cmd]. *)
Definition gogui_rules_board_size_cmd (args : list string)
  (c : GtpConnection) : reply unit :=
  Done () (respond c (Py.str (size (live_board c)))).

(** One cell of [gogui_rules_board_cmd]; [None] is the failed
    [assert False]. *)
Definition cell_symbol (cell : Z) : option ascii :=
  if cell =? BLACK then Some "X"%char
  else if cell =? WHITE then Some "O"%char
  else if cell =? EMPTY then Some "."%char
  else None.

(** The inner loop of [gogui_rules_board_cmd]: the cells [start + i] for
    the given [i], appended to [text]. *)
Fixpoint board_row (b : GoBoard) (start : Z) (columns : list Z)
  (text : string) : result string :=
  match columns with
  | [] => Ok text
  | i :: rest =>
      match Py.index (board b) (start + i) with
      | None => Raise IndexError
      | Some cell =>
          match cell_symbol cell with
          | None => Raise AssertionError
          | Some symbol =>
              board_row b start rest (text +:+ String symbol EmptyString)
          end
      end
  end.

(** The outer loop: one line for each row. *)
Fixpoint board_rows (b : GoBoard) (rows : list Z) (text : string)
  : result string :=
  match rows with
  | [] => Ok text
  | row :: rest =>
      let start := row_start b (row + 1) in
      match board_row b start (Zrange 0 (Z.to_nat (size b))) text with
      | Raise e => Raise e
      | Ok text => board_rows b rest (text +:+ newline)
      end
  end.

(** [gogui_rules_board_cmd]: the rows from [size - 1] down to 0. *)
Definition gogui_rules_board_cmd (args : list string) (c : GtpConnection)
  : reply unit :=
  let b := live_board c in
  match board_rows b (rev (Zrange 0 (Z.to_nat (size b)))) EmptyString with
  | Raise e => Failed (Raised e) c
  | Ok text => Done () (respond c text)
  end.

(** The name [gogui_rules_legal_moves_cmd] gives a coordinate:
    [chr(ord('a') + col - 1) + str(row)]; [None], for PASS, is the
    [TypeError] of unpacking it. *)
Definition legal_move_name (move_coord : coord) : option string :=
  match move_coord with
  | Some (row, col) =>
      Some (String (Py.chr (Py.code "a" + col - 1)) (Py.str row))
  | None => None
  end.

(** [gogui_rules_legal_moves_cmd]: the names of the legal moves of the
    side to move, sorted, joined and in upper case. *)
Definition gogui_rules_legal_moves_cmd (args : list string)
  (c : GtpConnection) : reply unit :=
  let b := live_board c in
  let legal_moves := generate_legal_moves b (current_player b) in
  let coords :=
    map (fun move => point_to_coord (Some move) (size b)) legal_moves in
  match mapM legal_move_name coords with
  | None => Failed (Raised TypeError) c
  | Some point_strs =>
      let point_strs := Text.sort point_strs in
      let point_strs := Text.upper (Text.join " " point_strs) in
      Done () (respond c point_strs)
  end.

(** [gogui_rules_final_result_cmd]. *)
Definition gogui_rules_final_result_cmd (args : list string)
  (c : GtpConnection) : reply unit :=
  let b := live_board c in
  let legal_moves := generate_legal_moves b (current_player b) in
  if (length legal_moves =? 0)%nat then
    let winner := if current_player b =? WHITE then "black" else "white" in
    Done () (respond c winner)
  else Done () (respond c "unknown").

(** The text of the [UnboundLocalError] for [move] in [play_cmd]. *)
Definition unbound_move : string :=
  "local variable 'move' referenced before assignment".

(** The body of the [try] of [play_cmd]: the connection it leaves, or the
    text [str(e)] of the exception that leaves it. *)
Definition play_cmd_try (args : list string) (c : GtpConnection)
  : string + GtpConnection :=
  match args with
  | [] => inl "list index out of range"%string
  | a0 :: rest =>
      let board_color := Py.lower a0 in
      match rest with
      | [] => inl "list index out of range"%string
      | a1 :: _ =>
          let board_move := a1 in
          match color_to_int board_color with
          | None => inl (Text.repr board_color)
          | Some color =>
              if String.eqb (Py.lower a1) "pass"
              then inr (respond c "illegal move")
              else
                match move_to_coord a1 (size (live_board c)) with
                | Raise (ValueError msg) => inl msg
                | Raise _ => inl EmptyString
                | Ok None => inl unbound_move
                | Ok (Some (row, col)) =>
                    let move := coord_to_point row col (size (live_board c)) in
                    let '(success, b') := play_move (live_board c) move color in
                    let c := with_live_board c b' in
                    if negb success then inr (respond c "illegal move")
                    else inr (respond c EmptyString)
                end
          end
      end
  end.

(** [play_cmd]: an exception of the body is answered "Error: " and its
    text. *)
Definition play_cmd (args : list string) (c : GtpConnection) : reply unit :=
  match play_cmd_try args c with
  | inr c' => Done () c'
  | inl text => Done () (respond c ("Error: " +:+ text))
  end.

(** The two lines [move_coord = move_to_coord(move, self.board.size)] and
    [move_as_point = self.board.NS * move_coord[0] + move_coord[1]] of
    [genmove_cmd]. *)
Definition move_as_point (move : string) (b : GoBoard) : result Z :=
  match move_to_coord move (size b) with
  | Raise e => Raise e
  | Ok None => Raise TypeError
  | Ok (Some (row, col)) => Ok (NS b * row + col)
  end.

(** [genmove_cmd]. *)
Definition genmove_cmd (args : list string) (c : GtpConnection)
  : reply unit :=
  match args with
  | [] => Failed (Raised IndexError) c
  | a0 :: _ =>
      let board_color := Py.lower a0 in
      match color_to_int board_color with
      | None => Failed (KeyError board_color) c
      | Some color =>
          match get_move (live_board c) color with
          | None => Done () (respond c "resign")
          | Some move =>
              match solve_cmd calls_per_second ["genmove"%string] c with
              | OutOfFuel => Unfinished
              | Raises e c => Failed (Raised e) c
              | Returns (Some response) c =>
                  let move := Py.lower response in
                  match move_as_point move (live_board c) with
                  | Raise e => Failed (Raised e) c
                  | Ok p =>
                      let '(_, b') := play_move (live_board c) p color in
                      Done () (respond (with_live_board c b') move)
                  end
              | Returns None c =>
                  match move_as_point move (live_board c) with
                  | Raise e => Failed (Raised e) c
                  | Ok p =>
                      if is_legal (live_board c) p color then
                        let '(_, b') := play_move (live_board c) p color in
                        Done () (respond (with_live_board c b') move)
                      else Done () (respond c "resign")
                  end
              end
          end
      end
  end.

(** *** The dispatcher *)

(** The dictionary [self.commands]: the handlers by name, in the order
    they were entered, each name once. *)
Variable commands : list (string * handler).

(** [self.commands[name]], or [None] when the name is no key. *)
Fixpoint command (name : string) (table : list (string * handler))
  : option handler :=
  match table with
  | [] => None
  | (key, handler) :: rest =>
      if String.eqb key name then Some handler else command name rest
  end.

(** The dictionary [self.argmap]. *)
Definition argmap : list (string * (nat * string)) :=
  [("boardsize", (1%nat, "Usage: boardsize INT"));
   ("komi", (1%nat, "Usage: komi FLOAT"));
   ("known_command", (1%nat, "Usage: known_command CMD_NAME"));
   ("genmove", (1%nat, "Usage: genmove {w,b}"));
   ("play", (2%nat, "Usage: play {b,w} MOVE"));
   ("legal_moves", (1%nat, "Usage: legal_moves {w,b}"));
   ("timelimit", (1%nat, "Usage: timelimit INT"))]%string.

(** [self.argmap[cmd]], or [None]. *)
Fixpoint arg_rule (cmd : string) (table : list (string * (nat * string)))
  : option (nat * string) :=
  match table with
  | [] => None
  | (key, rule) :: rest =>
      if String.eqb key cmd then Some rule else arg_rule cmd rest
  end.

(** [has_arg_error]: whether the number of arguments is wrong, and the
    connection with the usage written when it is. *)
Definition has_arg_error (cmd : string) (argnum : nat) (c : GtpConnection)
  : bool * GtpConnection :=
  match arg_rule cmd argmap with
  | Some (required, usage) =>
      if negb (required =? argnum)%nat then (true, error c usage)
      else (false, c)
  | None => (false, c)
  end.

(** [known_command_cmd]. *)
Definition known_command_cmd (args : list string) (c : GtpConnection)
  : reply unit :=
  match args with
  | [] => Failed (Raised IndexError) c
  | a0 :: _ =>
      match command a0 commands with
      | Some _ => Done () (respond c "true")
      | None => Done () (respond c "false")
      end
  end.

(** [list_commands_cmd]. *)
Definition list_commands_cmd (args : list string) (c : GtpConnection)
  : reply unit :=
  Done () (respond c (Text.join " " (map fst commands))).

(** The words of a line as [get_cmd] reads them: [None] for a line it
    skips before it splits it. *)
Definition command_words (line : string) : option (list string) :=
  let l := list_ascii_of_string line in
  match Text.strip_chars blank_chars l with
  | [] => None
  | _ =>
      match l with
      | [] => None
      | first :: _ =>
          if Ascii.eqb first "#" then None
          else
            let l :=
              if Py.is_digit first then Py.lstrip (Text.drop_digits l)
              else l in
            Some (Text.split_words [] l)
      end
  end.

(** [get_cmd]: parses the line and executes the command. *)
Definition get_cmd (line : string) (c : GtpConnection) : reply unit :=
  match command_words line with
  | None => Done () c
  | Some [] => Done () c
  | Some (command_name :: args) =>
      let '(arg_error, c) := has_arg_error command_name (length args) c in
      if arg_error then Done () c
      else
        match command command_name commands with
        | Some handler => handler args c
        | None => Done () (error c "Unknown command")
        end
  end.

End Commands.

(** The text made of the given lines, each ended by a line feed. *)
Definition board_text (rows : list string) : string :=
  fold_right (fun row text => row +:+ newline +:+ text) EmptyString rows.

(** The symbols [gogui_rules_board_cmd] draws a cell with. *)
Definition board_symbols : list ascii := ["X"; "O"; "."]%char.

(** A name as [split] returns one: not empty and without white space. *)
Definition is_word (name : string) : bool :=
  negb (String.eqb name EmptyString)
  && forallb (fun c => negb (Py.is_space c)) (list_ascii_of_string name).

(** Whether [move_to_coord] reads the name [gogui_rules_legal_moves_cmd]
    prints for a coordinate as the coordinate itself left of column 9,
    rejects it at column 9, and reads the column to the left beyond. *)
Definition name_read_back (n row col : Z) : bool :=
  match legal_move_name (Some (row, col)) with
  | None => false
  | Some name =>
      match move_to_coord (Text.upper name) n with
      | Ok (Some (row', col')) =>
          (row' =? row)
          && (if col <? 9 then col' =? col
              else if col =? 9 then false else col' =? col - 1)
      | Ok None => false
      | Raise (ValueError _) => col =? 9
      | Raise _ => false
      end
  end.

(** * Properties *)

Example format_point_A1 : format_point (Some (1, 1)) = Ok "A1"%string.
Proof. reflexivity. Qed.

Example format_point_J9 : format_point (Some (9, 9)) = Ok "J9"%string.
Proof. reflexivity. Qed.

Example move_to_coord_j9 : move_to_coord "J9" 9 = Ok (Some (9, 9)).
Proof. reflexivity. Qed.

Example move_to_coord_off_board :
  move_to_coord "z99" 9 = Raise (point_off_board "z99").
Proof. reflexivity. Qed.

(** ** Properties of the notation codec *)

Lemma In_Zrange (lo : Z) (n : nat) (x : Z) :
  lo <= x < lo + Z.of_nat n -> In x (Zrange lo n).
Proof.
  intros Hx. unfold Zrange. apply in_map_iff.
  exists (Z.to_nat (x - lo)). split; [lia |].
  apply in_seq. lia.
Qed.

Lemma In_all_ascii (c : ascii) : In c all_ascii.
Proof.
  unfold all_ascii. apply in_map_iff. exists (nat_of_ascii c).
  split; [apply ascii_nat_embedding |].
  apply in_seq. pose proof (nat_ascii_bounded c). lia.
Qed.

Lemma round_trip_coord_table :
  forallb (fun n =>
    forallb (fun row =>
      forallb (fun col =>
        negb ((row <=? n) && (col <=? n)) || round_trip_coord n row col)
      (Zrange 1 24)) (Zrange 1 24)) (Zrange 2 24) = true.
Proof. vm_compute. reflexivity. Qed.

Lemma round_trip_text_table :
  forallb (fun n =>
    forallb (fun letter =>
      forallb (fun row => round_trip_text n letter row) (Zrange 1 25))
    all_ascii) (Zrange 2 24) = true.
Proof. vm_compute. reflexivity. Qed.

Lemma format_point_in_range (row col : Z) :
  0 <= row < MAXSIZE -> 0 <= col < MAXSIZE ->
  exists letter, format_point (Some (row, col)) = Ok (String letter (Py.str row)).
Proof.
  intros Hr Hc. unfold format_point, MAXSIZE in *. simpl negb at 1. cbv iota.
  replace ((0 <=? row) && (row <? 25)) with true by lia.
  replace ((0 <=? col) && (col <? 25)) with true by lia.
  cbn [negb orb].
  assert (In col (Zrange 0 25)) as Hin by (apply In_Zrange; lia).
  assert (forallb (fun c => match Py.str_index column_letters (c - 1) with
                            | Some _ => true | None => false end)
            (Zrange 0 25) = true) as Hall by (vm_compute; reflexivity).
  rewrite forallb_forall in Hall. specialize (Hall col Hin).
  destruct (Py.str_index column_letters (col - 1)) as [letter|]; [|discriminate].
  by exists letter.
Qed.

Lemma format_point_out_of_range (row col : Z) :
  ~ (0 <= row < MAXSIZE /\ 0 <= col < MAXSIZE) ->
  format_point (Some (row, col)) = Raise (ValueError EmptyString).
Proof.
  intros Hout. unfold format_point, MAXSIZE in *. simpl negb at 1. cbv iota.
  destruct (negb ((0 <=? row) && (row <? 25))
            || negb ((0 <=? col) && (col <? 25))) eqn:E; [done | lia].
Qed.

(** C6 (failing input).  Row 25 is a coordinate of the largest supported
    board: [move_to_coord] returns it for a board of size 25, yet
    [format_point] rejects it with [ValueError], because its guard tests
    [0 <= row < MAXSIZE] on coordinates that start at 1.  The same guard
    lets row 0 and column 0 through, and column 0 is then printed as the
    last letter of the alphabet by Python's negative index. *)
Theorem format_point_rejects_row_25 :
  move_to_coord "A25" 25 = Ok (Some (25, 1))
  /\ format_point (Some (25, 1)) = Raise (ValueError EmptyString)
  /\ format_point (Some (1, 25)) = Raise (ValueError EmptyString)
  /\ format_point (Some (0, 0)) = Ok "Z0"%string
  /\ format_point PASS = Ok "PASS"%string.
Proof. repeat split; vm_compute; reflexivity. Qed.

(** C5 (counterexample).  A syntactically valid, in-bounds notation string
    is not always reproduced: [int()] accepts a padded row number, so "a01"
    is parsed to (1, 1), which is formatted as "A1". *)
Lemma padded_row_not_reproduced :
  move_to_coord "a01" 9 = Ok (Some (1, 1))
  /\ format_point (Some (1, 1)) = Ok "A1"%string
  /\ Py.lower "A1" <> Py.lower "a01".
Proof. repeat split; vm_compute; congruence. Qed.

(** C5 (amended).  For rows and columns 1 to 24 and every board size that
    holds them, parsing the formatted coordinate gives the coordinate back;
    and a string made of one letter and the plain decimal numeral of a row,
    when it is parsed to a coordinate with row and column at most 24, is
    reproduced by [format_point] up to case. *)
Theorem notation_round_trip :
  (forall n row col : Z,
      2 <= n <= MAXSIZE -> 1 <= row <= 24 -> 1 <= col <= 24 ->
      row <= n -> col <= n ->
      exists s, format_point (Some (row, col)) = Ok s
                /\ move_to_coord s n = Ok (Some (row, col)))
  /\ (forall (n : Z) (letter : ascii) (row row' col' : Z),
         1 <= row <= MAXSIZE -> row' <= 24 -> col' <= 24 ->
         move_to_coord (String letter (Py.str row)) n = Ok (Some (row', col')) ->
         exists t, format_point (Some (row', col')) = Ok t
                   /\ Py.lower t = Py.lower (String letter (Py.str row))).
Proof.
  unfold MAXSIZE. split.
  - intros n row col Hn Hrow Hcol Hrn Hcn.
    pose proof round_trip_coord_table as T.
    rewrite forallb_forall in T.
    specialize (T n (In_Zrange 2 24 n ltac:(lia))).
    rewrite forallb_forall in T.
    specialize (T row (In_Zrange 1 24 row ltac:(lia))).
    rewrite forallb_forall in T.
    specialize (T col (In_Zrange 1 24 col ltac:(lia))).
    replace ((row <=? n) && (col <=? n)) with true in T by lia.
    cbn [negb orb] in T. unfold round_trip_coord in T.
    destruct (format_point (Some (row, col))) as [s|]; [|discriminate].
    exists s. split; [done |].
    destruct (move_to_coord s n) as [[[row' col']|]|]; try discriminate.
    apply andb_prop in T as [Hr Hc].
    apply Z.eqb_eq in Hr, Hc. by subst.
  - intros n letter row row' col' Hrow Hr' Hc' Hparse.
    assert (2 <= n <= 25) as Hn.
    { unfold move_to_coord, MAXSIZE in Hparse.
      destruct ((2 <=? n) && (n <=? 25)) eqn:E; [lia | discriminate]. }
    pose proof round_trip_text_table as T.
    rewrite forallb_forall in T.
    specialize (T n (In_Zrange 2 24 n ltac:(lia))).
    rewrite forallb_forall in T.
    specialize (T letter (In_all_ascii letter)).
    rewrite forallb_forall in T.
    specialize (T row (In_Zrange 1 25 row ltac:(lia))).
    unfold round_trip_text in T. rewrite Hparse in T.
    replace ((row' <=? 24) && (col' <=? 24)) with true in T by lia.
    destruct (format_point (Some (row', col'))) as [t|]; [|discriminate].
    exists t. split; [done |]. by apply String.eqb_eq.
Qed.

(** The amended round trip at the point J9 of a 9x9 board. *)
Lemma notation_round_trip_witness :
  (exists s, format_point (Some (9, 9)) = Ok s
             /\ move_to_coord s 9 = Ok (Some (9, 9)))
  /\ (exists t, format_point (Some (9, 9)) = Ok t
                /\ Py.lower t = Py.lower (String "j" (Py.str 9))).
Proof.
  split.
  - apply (proj1 notation_round_trip 9 9 9); unfold MAXSIZE; lia.
  - apply (proj2 notation_round_trip 9 "j"%char 9 9 9);
      [unfold MAXSIZE; lia | lia | lia | reflexivity].
Defined.

(** ** The board is restored *)

Lemma undo_played (b : GoBoard) (p color : Z) :
  board b !! Z.to_nat p = Some EMPTY ->
  undo_move (played b p color) p (last_move b) (last2_move b)
            (current_player b) = b.
Proof.
  intros Hcell. destruct b as [sz cells cp lm l2m]. simpl in *.
  unfold undo_move, set_current_player, set_last2_move, set_last_move,
    set_point, played. simpl.
  f_equal. rewrite list_insert_insert_eq. by apply list_insert_id.
Qed.

Lemma deliver_board (s s' : search) (u : unit) :
  deliver s = Returns u s' ->
  s_board s' = s_board s /\ winning_moves s' = winning_moves s
  /\ s_tt s' = s_tt s.
Proof.
  unfold deliver. destruct (alarm s) as [[|k]|]; intros E; inversion E; done.
Qed.

Section Restore.

Context `{BoardLaws}.

Lemma explore_restores_board (recurse : search -> outcome search bool) :
  (forall s r s', recurse s = Returns r s' -> s_board s' = s_board s) ->
  forall legal_moves s r s',
    explore recurse legal_moves s = Returns r s' -> s_board s' = s_board s.
Proof.
  intros Hrec legal_moves.
  induction legal_moves as [|move rest IH]; intros s r s' E; simpl in E.
  - by inversion E.
  - destruct (play_move (s_board s) move (current_player (s_board s)))
      as [[|] b1] eqn:Eplay; simpl in E.
    + apply play_move_legal in Eplay as (_ & Hcell & _ & ->).
      destruct (recurse _) as [r1 s1| |] eqn:Erec; try discriminate.
      apply Hrec in Erec. simpl in Erec.
      rewrite Erec, undo_played in E by done.
      destruct r1; simpl in E.
      * apply IH in E. by rewrite E.
      * destruct (format_point _); by inversion E.
    + apply play_move_illegal in Eplay as ->.
      apply IH in E. by rewrite E.
Qed.

(** A call that returns hands the board back as it received it. *)
Lemma search_restores_board (fuel : nat) (s : search) (r : bool)
  (s' : search) :
  boolean_negamax_tt fuel s = Returns r s' -> s_board s' = s_board s.
Proof.
  revert s r s'. induction fuel as [|fuel IH]; intros s r s' E; simpl in E.
  - discriminate.
  - destruct (deliver s) as [[] s0| |] eqn:Ed; try discriminate.
    apply deliver_board in Ed as (<- & _ & _).
    destruct (tt_lookup _ _) as [cached|].
    + by inversion E.
    + destruct (_ =? _)%nat; [by inversion E |].
      destruct (_ =? _)%nat; [by inversion E |].
      by eapply explore_restores_board in E.
Qed.

(** C2.  A call of [boolean_negamax_tt] that returns leaves the board it
    was given as it found it: every cell, [last_move], [last2_move] and
    [current_player] are those of before the call, whether the call
    returns on a table hit, at a terminal position, at the first winning
    move or after the last move. *)
Theorem boolean_negamax_tt_restores_board (fuel : nat) (s : search)
  (r : bool) (s' : search) :
  boolean_negamax_tt fuel s = Returns r s' ->
  s_board s' = s_board s
  /\ board (s_board s') = board (s_board s)
  /\ last_move (s_board s') = last_move (s_board s)
  /\ last2_move (s_board s') = last2_move (s_board s)
  /\ current_player (s_board s') = current_player (s_board s).
Proof. intros E. apply search_restores_board in E. by rewrite E. Qed.

End Restore.

(** ** The search in the words of the specification *)

Section FirstProofLemmas.

Context `{BoardOps}.

Variable recurse : search -> outcome search bool.

Lemma child_Some (s : search) (move : Z) (c : search) :
  child s move = Some c <->
  play_move (s_board s) move (current_player (s_board s))
  = (true, s_board c) /\ c = with_board s (s_board c).
Proof.
  unfold child.
  destruct (play_move _ _ _) as [[|] b1]; split.
  - intros [= <-]. done.
  - intros [[= ->] ->]. done.
  - discriminate.
  - intros [[=] _].
Qed.

Lemma explore_refutes (s : search) (move : Z) (rest : list Z) (s' : search) :
  refutes recurse s move s' ->
  explore recurse (move :: rest) s = explore recurse rest s'.
Proof.
  intros [b1 Eplay | c s1 Ec Erec]; simpl.
  - by rewrite Eplay.
  - apply child_Some in Ec as [Eplay Ec]. rewrite Eplay. simpl.
    rewrite <- Ec, Erec. done.
Qed.

Lemma explore_all_refuted (before rest : list Z) (s sm : search) :
  all_refuted recurse before s sm ->
  explore recurse (before ++ rest) s = explore recurse rest sm.
Proof.
  induction 1 as [|move before s s1 sm Hmove _ IH]; [done |].
  rewrite <- IH. by apply explore_refutes.
Qed.

Lemma explore_proves (s : search) (move : Z) (rest : list Z) (s' : search) :
  proves recurse s move s' ->
  explore recurse (move :: rest) s = Returns true s'.
Proof.
  intros (c & s1 & text & Ec & Erec & Etext & ->). simpl.
  apply child_Some in Ec as [Eplay Ec]. rewrite Eplay. simpl.
  rewrite <- Ec, Erec. simpl.
  unfold restored in Etext. simpl in Etext. rewrite Etext. done.
Qed.

(** The loop of [boolean_negamax_tt] returns exactly what steps 3 and 4
    of the algorithm describe. *)
Lemma explore_first_proof (legal_moves : list Z) (s : search) (r : bool)
  (s' : search) :
  explore recurse legal_moves s = Returns r s'
  <-> first_proof recurse legal_moves s r s'.
Proof.
  split.
  - revert s. induction legal_moves as [|move rest IH]; intros s E.
    + simpl in E. inversion E; subst. exists s. split; [constructor | done].
    + simpl in E.
      destruct (play_move (s_board s) move (current_player (s_board s)))
        as [[|] b1] eqn:Eplay; simpl in E.
      * destruct (recurse (with_board s b1)) as [r1 s1| |] eqn:Erec;
          try discriminate.
        assert (child s move = Some (with_board s b1)) as Ec
            by (unfold child; by rewrite Eplay).
        destruct r1; simpl in E.
        -- apply IH in E.
           assert (refutes recurse s move (restored s move s1)) as Href
               by (by eapply refutes_answered).
           destruct r; simpl in *.
           ++ destruct E as (before & m & after & sm & -> & Hall & Hm).
              exists (move :: before), m, after, sm.
              split; [done |]. split; [by econstructor | done].
           ++ destruct E as (sm & Hall & ->).
              exists sm. split; [by econstructor | done].
        -- destruct (format_point _) as [text|] eqn:Etext; [|discriminate].
           inversion E; subst. simpl.
           exists [], move, rest, s. split; [done |]. split; [constructor |].
           exists (with_board s b1), s1, text. done.
      * apply IH in E.
        assert (refutes recurse s move (with_board s b1)) as Href
            by (by constructor).
        destruct r; simpl in *.
        -- destruct E as (before & m & after & sm & -> & Hall & Hm).
           exists (move :: before), m, after, sm.
           split; [done |]. split; [by econstructor | done].
        -- destruct E as (sm & Hall & ->).
           exists sm. split; [by econstructor | done].
  - destruct r; simpl.
    + intros (before & move & after & sm & -> & Hall & Hmove).
      rewrite (explore_all_refuted _ _ _ _ Hall). by apply explore_proves.
    + intros (sm & Hall & ->).
      rewrite <- (app_nil_r legal_moves).
      by rewrite (explore_all_refuted _ _ _ _ Hall).
Qed.

End FirstProofLemmas.

Section Search.

Context `{BoardOps}.


(** What [storeResult] leaves: the board, the trail and the alarm as they
    were, the result under the hash of the board, and every other entry of
    the table as it was. *)
Lemma storeResult_stores (s : search) (result : bool) :
  tt_lookup (s_tt (storeResult s result)) (hash_code (s_board s))
  = Some result
  /\ (forall h, h <> hash_code (s_board s) ->
        tt_lookup (s_tt (storeResult s result)) h = tt_lookup (s_tt s) h)
  /\ s_board (storeResult s result) = s_board s
  /\ winning_moves (storeResult s result) = winning_moves s.
Proof.
  unfold storeResult, tt_lookup, tt_store. simpl.
  split; [apply lookup_insert_eq |].
  split; [| done]. intros h Hh. by apply lookup_insert_ne.
Qed.

(** C3.  Without a table hit, a side to move that has no legal move loses:
    the call returns false, and in the table it leaves false is stored
    under the hash of the position; otherwise an opponent that has no
    legal move in the position as it stands makes it a win: the call
    returns true and true is stored under the hash.  The first test is
    made first, and in both cases no move is explored: the board and the
    trail are untouched and no other entry of the table is changed. *)
Theorem boolean_negamax_tt_terminal (fuel : nat) (s s0 : search) :
  deliver s = Returns () s0 ->
  tt_lookup (s_tt s0) (hash_code (s_board s0)) = None ->
  let stored (result : bool) (s' : search) :=
    tt_lookup (s_tt s') (hash_code (s_board s0)) = Some result
    /\ (forall h, h <> hash_code (s_board s0) ->
          tt_lookup (s_tt s') h = tt_lookup (s_tt s0) h)
    /\ s_board s' = s_board s0
    /\ winning_moves s' = winning_moves s0 in
  (generate_legal_moves (s_board s0) (current_player (s_board s0)) = [] ->
   exists s',
     boolean_negamax_tt (S fuel) s = Returns false s' /\ stored false s')
  /\ (generate_legal_moves (s_board s0) (current_player (s_board s0)) <> [] ->
      generate_legal_moves (s_board s0)
        (opponent (current_player (s_board s0))) = [] ->
      exists s',
        boolean_negamax_tt (S fuel) s = Returns true s' /\ stored true s').
Proof.
  intros Hdeliver Hmiss stored. simpl. rewrite Hdeliver, Hmiss. split.
  - intros ->. exists (storeResult s0 false).
    split; [done | apply storeResult_stores].
  - intros Hlegal ->. exists (storeResult s0 true).
    split; [| apply storeResult_stores].
    by destruct (generate_legal_moves (s_board s0)
                   (current_player (s_board s0))).
Qed.

Lemma storeResult_effect (s : search) (result : bool) :
  s_board (storeResult s result) = s_board s
  /\ winning_moves (storeResult s result) = winning_moves s
  /\ alarm (storeResult s result) = alarm s
  /\ tt_lookup (s_tt (storeResult s result)) (hash_code (s_board s))
     = Some result.
Proof.
  repeat split. unfold storeResult, tt_lookup, tt_store. simpl.
  apply lookup_insert_eq.
Qed.

End Search.

(** ** Termination *)

Lemma count_empty_played (b : GoBoard) (p color : Z) :
  board b !! Z.to_nat p = Some EMPTY -> color <> EMPTY ->
  count_empty b = S (count_empty (played b p color)).
Proof.
  intros Hcell Hcolor. unfold count_empty, played. simpl.
  pose proof (lookup_lt_Some _ _ _ Hcell) as Hlt.
  rewrite insert_take_drop by done.
  rewrite <- (take_drop_middle (board b) (Z.to_nat p) EMPTY Hcell) at 1.
  rewrite !filter_app, !length_app.
  rewrite filter_cons_True by done.
  rewrite filter_cons_False by done.
  simpl. lia.
Qed.

Section Termination.

Context `{BoardLaws}.

(** Every recursive call is made on a position with one empty point
    less: a stone was just placed. *)
Lemma child_fewer_empty (s : search) (move : Z) (c : search) :
  child s move = Some c ->
  count_empty (s_board s) = S (count_empty (s_board c)).
Proof.
  intros Ec. apply child_Some in Ec as [Eplay _].
  apply play_move_legal in Eplay as (_ & Hcell & Hcolor & ->).
  by apply count_empty_played.
Qed.

Lemma explore_terminates (recurse : search -> outcome search bool)
  (b : GoBoard) :
  (forall s r s', recurse s = Returns r s' -> s_board s' = s_board s) ->
  (forall s, (count_empty (s_board s) < count_empty b)%nat ->
             recurse s <> OutOfFuel) ->
  forall legal_moves s,
    s_board s = b -> explore recurse legal_moves s <> OutOfFuel.
Proof.
  intros Hboard Hrec legal_moves.
  induction legal_moves as [|move rest IH]; intros s Hs; simpl; [done |].
  destruct (play_move (s_board s) move (current_player (s_board s)))
    as [[|] b1] eqn:Eplay; simpl.
  - apply play_move_legal in Eplay as (_ & Hcell & Hcolor & ->).
    destruct (recurse _) as [r1 s1| |] eqn:Erec; [| done |].
    + apply Hboard in Erec. simpl in Erec.
      rewrite Erec, undo_played by done.
      destruct r1; simpl.
      * by apply IH.
      * by destruct (format_point _).
    + exfalso. revert Erec. apply Hrec. simpl.
      rewrite <- Hs, (count_empty_played (s_board s) move _ Hcell Hcolor).
      lia.
  - apply play_move_illegal in Eplay as ->. by apply IH.
Qed.

(** The recursion is well founded: with one unit of fuel for each empty
    point and one more, the search never runs out of it; it returns or it
    is left by an exception. *)
Theorem boolean_negamax_tt_terminates (fuel : nat) (s : search) :
  (count_empty (s_board s) < fuel)%nat ->
  boolean_negamax_tt fuel s <> OutOfFuel.
Proof.
  revert s. induction fuel as [|fuel IH]; intros s Hfuel; [lia |].
  simpl. destruct (deliver s) as [[] s0| |] eqn:Ed; [| done |].
  - apply deliver_board in Ed as (Hb & _ & _).
    destruct (tt_lookup _ _); [done |].
    destruct (_ =? _)%nat; [done |].
    destruct (_ =? _)%nat; [done |].
    apply (explore_terminates _ (s_board s0)); [| | done].
    + apply search_restores_board.
    + intros s1 Hs1. apply IH. rewrite Hb in Hs1. lia.
  - unfold deliver in Ed. by destruct (alarm s) as [[|]|].
Qed.

(** More fuel does not change the outcome of a search that had enough. *)
Lemma explore_ext (f g : search -> outcome search bool) :
  (forall s, f s <> OutOfFuel -> g s = f s) ->
  forall legal_moves s,
    explore f legal_moves s <> OutOfFuel ->
    explore g legal_moves s = explore f legal_moves s.
Proof.
  intros Hfg legal_moves.
  induction legal_moves as [|move rest IH]; intros s Hf; simpl in *; [done |].
  destruct (play_move _ _ _) as [[|] b1]; simpl in *.
  - destruct (f (with_board s b1)) as [r1 s1| |] eqn:Ef; [| | done].
    + rewrite Hfg by (by rewrite Ef). rewrite Ef.
      destruct r1; simpl in *; [by apply IH | done].
    + rewrite Hfg by (by rewrite Ef). by rewrite Ef.
  - by apply IH.
Qed.

Lemma boolean_negamax_tt_more_fuel (fuel extra : nat) (s : search) :
  boolean_negamax_tt fuel s <> OutOfFuel ->
  boolean_negamax_tt (fuel + extra) s = boolean_negamax_tt fuel s.
Proof.
  revert s. induction fuel as [|fuel IH]; intros s Hs; [done |].
  simpl in *. destruct (deliver s) as [[] s0| |]; [| done | done].
  destruct (tt_lookup _ _); [done |].
  destruct (_ =? _)%nat; [done |].
  destruct (_ =? _)%nat; [done |].
  by apply explore_ext.
Qed.

(** On a board of size at most 24 every point of the grid has a
    notation. *)
Lemma printable_on_grid (b : GoBoard) :
  size b <= 24 -> on_grid b -> printable b.
Proof.
  intros Hsize Hgrid p Hp Hcell.
  destruct (Hgrid p Hp Hcell) as [Hrow Hcol]. unfold NS in *.
  destruct (format_point_in_range (p / (size b + 1)) (p mod (size b + 1)))
    as [letter E]; [unfold MAXSIZE; lia | unfold MAXSIZE; lia |].
  eexists. exact E.
Qed.

Lemma printable_played (b : GoBoard) (p color : Z) :
  color <> EMPTY -> printable b -> printable (played b p color).
Proof.
  intros Hcolor Hb q Hq. unfold played. simpl. intros Hcell.
  apply Hb; [done |].
  destruct (decide (Z.to_nat p = Z.to_nat q)) as [E|E].
  - rewrite E in Hcell.
    destruct (decide (Z.to_nat q < length (board b))%nat).
    + rewrite list_lookup_insert_eq in Hcell by done. congruence.
    + by rewrite list_insert_ge in Hcell by lia.
  - by rewrite list_lookup_insert_ne in Hcell.
Qed.

Lemma explore_returns (recurse : search -> outcome search bool)
  (b : GoBoard) :
  printable b ->
  (forall s, alarm s = None -> printable (s_board s) ->
             (count_empty (s_board s) < count_empty b)%nat ->
             exists r s', recurse s = Returns r s' /\ alarm s' = None
                          /\ s_board s' = s_board s) ->
  forall legal_moves s,
    s_board s = b -> alarm s = None ->
    exists r s', explore recurse legal_moves s = Returns r s'
                 /\ alarm s' = None.
Proof.
  intros Hprint Hrec legal_moves.
  induction legal_moves as [|move rest IH]; intros s Hs Halarm; simpl.
  - by eexists _, _.
  - destruct (play_move (s_board s) move (current_player (s_board s)))
      as [[|] b1] eqn:Eplay; simpl.
    + apply play_move_legal in Eplay as (Hp & Hcell & Hcolor & ->).
      destruct (Hrec (with_board s (played (s_board s) move
                                      (current_player (s_board s)))))
        as (r1 & s1 & -> & Halarm1 & Hboard1).
      * done.
      * simpl. apply printable_played; [done | by rewrite Hs].
      * simpl. rewrite <- Hs,
          (count_empty_played (s_board s) move _ Hcell Hcolor). lia.
      * simpl in Hboard1. rewrite Hboard1, undo_played by done.
        destruct r1; simpl.
        -- by apply IH.
        -- rewrite <- Hs in Hprint.
           destruct (Hprint move Hp Hcell) as [text Etext].
           simpl in Etext. rewrite Etext.
           by eexists _, _.
    + apply play_move_illegal in Eplay as ->. by apply IH.
Qed.

(** Given sufficient time, that is with no alarm installed, the search
    on a board whose empty points all have a notation reaches one of its
    return points. *)
Theorem boolean_negamax_tt_returns (fuel : nat) (s : search) :
  alarm s = None -> printable (s_board s) ->
  (count_empty (s_board s) < fuel)%nat ->
  exists r s', boolean_negamax_tt fuel s = Returns r s' /\ alarm s' = None
               /\ s_board s' = s_board s.
Proof.
  revert s. induction fuel as [|fuel IH]; intros s Halarm Hprint Hfuel;
    [lia |].
  assert (exists r s', boolean_negamax_tt (S fuel) s = Returns r s'
                       /\ alarm s' = None) as (r & s' & E & Ha).
  { simpl. unfold deliver. rewrite Halarm.
    destruct (tt_lookup _ _); [by eexists _, _ |].
    destruct (_ =? _)%nat; [by eexists _, _ |].
    destruct (_ =? _)%nat; [by eexists _, _ |].
    apply (explore_returns _ (s_board s)); [done | | done | done].
    intros s1 Ha1 Hp1 Hc1. apply IH; [done | done | lia]. }
  exists r, s'. split; [done |]. split; [done |].
  by eapply search_restores_board.
Qed.

End Termination.

(** ** The search computes the value of the position *)

Lemma existsb_pointwise {A : Type} (f g : A -> bool) (l : list A) :
  (forall x, f x = g x) -> existsb f l = existsb g l.
Proof. intros Hfg. induction l as [|x l IH]; simpl; [done | by rewrite Hfg, IH]. Qed.

Section ValueLemmas.

Context `{BoardLaws}.

Lemma winning_move_wins (b : GoBoard) (move : Z) :
  (let '(can_play_move, b1) := play_move b move (current_player b) in
   can_play_move && negb (wins (count_empty b) b1))
  = winning_move b move.
Proof.
  unfold winning_move.
  destruct (play_move b move (current_player b)) as [[|] b1] eqn:Eplay;
    [|done].
  apply play_move_legal in Eplay as (_ & Hcell & Hcolor & ->).
  unfold value, search_fuel.
  by rewrite (count_empty_played b move _ Hcell Hcolor).
Qed.

(** The negamax rule: a position is won by the side to move when it has a
    legal move and either the opponent has none or one of its moves leads
    to a position the opponent loses. *)
Lemma value_step (b : GoBoard) :
  value b
  = if (length (generate_legal_moves b (current_player b)) =? 0)%nat
    then false
    else if (length (generate_legal_moves b (opponent (current_player b)))
             =? 0)%nat
         then true
         else existsb (winning_move b)
                (generate_legal_moves b (current_player b)).
Proof.
  unfold value at 1, search_fuel. simpl.
  destruct (_ =? _)%nat; [done |].
  destruct (_ =? _)%nat; [done |].
  apply existsb_pointwise. intros move. apply winning_move_wins.
Qed.

Lemma sound_store (t : TranspositionTable) (b : GoBoard) (v : bool) :
  collision_free -> sound t -> v = value b ->
  sound (tt_store t (hash_code b) v).
Proof.
  intros Hfree Ht -> b' v'. unfold tt_lookup, tt_store.
  destruct (decide (hash_code b = hash_code b')) as [E|E].
  - rewrite E, lookup_insert_eq. intros [= <-]. by apply Hfree.
  - rewrite lookup_insert_ne by done. apply Ht.
Qed.

Lemma explore_value (recurse : search -> outcome search bool)
  (b : GoBoard) :
  collision_free ->
  (forall s r s', sound (s_tt s) -> recurse s = Returns r s' ->
                  r = value (s_board s) /\ sound (s_tt s')
                  /\ s_board s' = s_board s) ->
  forall legal_moves s r s',
    s_board s = b -> sound (s_tt s) ->
    value b = existsb (winning_move b) legal_moves ->
    explore recurse legal_moves s = Returns r s' ->
    r = value b /\ sound (s_tt s').
Proof.
  intros Hfree Hrec legal_moves.
  induction legal_moves as [|move rest IH]; intros s r s' Hs Ht Hvalue E;
    simpl in E.
  - inversion E; subst. simpl in *. split; [done |].
    by apply sound_store.
  - simpl in Hvalue. unfold winning_move at 1 in Hvalue.
    rewrite <- Hs in Hvalue.
    destruct (play_move (s_board s) move (current_player (s_board s)))
      as [[|] b1] eqn:Eplay; simpl in E, Hvalue.
    + apply play_move_legal in Eplay as (_ & Hcell & _ & ->).
      destruct (recurse _) as [r1 s1| |] eqn:Erec; try discriminate.
      apply Hrec in Erec as (-> & Ht1 & Hb1); [| done].
      simpl in Hb1, E.
      rewrite Hb1, undo_played in E by done.
      destruct (value (played _ _ _)); simpl in E, Hvalue.
      * apply IH in E; [done | done | done |]. by rewrite <- Hs.
      * destruct (format_point _); inversion E; subst. simpl.
        split; [done |]. by apply sound_store.
    + apply play_move_illegal in Eplay as ->.
      apply IH in E; [done | done | done |]. by rewrite <- Hs.
Qed.

(** Functional correctness of the memoised search: when positions with
    the same hash have the same value and the table is sound, a call that
    returns gives the value of its position and leaves the table sound. *)
Theorem boolean_negamax_tt_value (fuel : nat) (s : search) (r : bool)
  (s' : search) :
  collision_free -> sound (s_tt s) ->
  boolean_negamax_tt fuel s = Returns r s' ->
  r = value (s_board s) /\ sound (s_tt s').
Proof.
  intros Hfree. revert s r s'.
  induction fuel as [|fuel IH]; intros s r s' Ht E; [done |].
  simpl in E.
  destruct (deliver s) as [[] s0| |] eqn:Ed; try discriminate.
  apply deliver_board in Ed as (Hb & _ & Htt). rewrite <- Hb, <- Htt in *.
  clear Hb Htt.
  destruct (tt_lookup _ _) as [cached|] eqn:Ehit.
  - inversion E; subst. split; [by apply Ht | done].
  - pose proof (value_step (s_board s0)) as Hstep.
    destruct (_ =? _)%nat.
    + inversion E; subst. simpl. split; [done |]. by apply sound_store.
    + destruct (_ =? _)%nat.
      * inversion E; subst. simpl. split; [done |]. by apply sound_store.
      * eapply explore_value in E; [done | done | | done | done | done].
        intros s1 r1 s1' Ht1 E1.
        destruct (IH _ _ _ Ht1 E1) as [Hr Hsound].
        split; [done |]. split; [done |].
        by eapply search_restores_board.
Qed.

(** The search of [solve] starts with an empty table: what it returns is
    the value of the live position. *)
Corollary solve_search_value (calls_per_second : nat) (c : GtpConnection)
  (solved : bool) (s : search) :
  collision_free ->
  solve_search calls_per_second c = Returns solved s ->
  solved = value (live_board c).
Proof.
  intros Hfree E. unfold solve_search in E.
  eapply boolean_negamax_tt_value in E as [-> _]; [done | done |].
  intros b v. unfold tt_lookup, tt_clear. simpl. by rewrite lookup_empty.
Qed.

End ValueLemmas.

(** ** The alarm and the trail during a search *)

Section Bookkeeping.

Context `{BoardOps}.

(** A search that returns has not consumed its alarm: one that was
    installed is still pending afterwards. *)
Lemma boolean_negamax_tt_keeps_alarm (fuel : nat) (s : search) (r : bool)
  (s' : search) :
  boolean_negamax_tt fuel s = Returns r s' ->
  is_Some (alarm s) -> is_Some (alarm s').
Proof.
  revert s r s'. induction fuel as [|fuel IH]; intros s r s' E Ha; [done |].
  simpl in E.
  assert (forall legal_moves s1 r1 s1',
             explore (boolean_negamax_tt fuel) legal_moves s1 = Returns r1 s1' ->
             is_Some (alarm s1) -> is_Some (alarm s1')) as Hloop.
  { clear s r s' E Ha.
    induction legal_moves as [|move rest IHl]; intros s r s' E Ha;
      simpl in E.
    - by inversion E.
    - destruct (play_move _ _ _) as [[|] b1]; simpl in E.
      + destruct (boolean_negamax_tt fuel _) as [r1 s1| |] eqn:Erec;
          try discriminate.
        apply IH in Erec; [| done].
        destruct r1; simpl in E.
        * by apply IHl in E.
        * destruct (format_point _); by inversion E.
      + by apply IHl in E. }
  assert (forall s0, deliver s = Returns () s0 -> is_Some (alarm s0)) as Hd.
  { unfold deliver. destruct Ha as [[|k] ->]; intros s0 E0; by inversion E0. }
  destruct (deliver s) as [[] s0| |]; try discriminate.
  specialize (Hd s0 eq_refl).
  destruct (tt_lookup _ _); [inversion E; by subst |].
  destruct (_ =? _)%nat; [inversion E; by subst |].
  destruct (_ =? _)%nat; [inversion E; by subst |].
  by eapply Hloop.
Qed.

(** The trail only grows during a call, and a call appends to it. *)
Lemma boolean_negamax_tt_trail_grows (fuel : nat) (s : search) (r : bool)
  (s' : search) :
  boolean_negamax_tt fuel s = Returns r s' ->
  exists appended, winning_moves s' = winning_moves s ++ appended.
Proof.
  revert s r s'. induction fuel as [|fuel IH]; intros s r s' E; [done |].
  simpl in E.
  assert (forall legal_moves s1 r1 s1',
             explore (boolean_negamax_tt fuel) legal_moves s1 = Returns r1 s1' ->
             exists appended, winning_moves s1' = winning_moves s1 ++ appended)
    as Hloop.
  { clear s r s' E.
    induction legal_moves as [|move rest IHl]; intros s r s' E; simpl in E.
    - inversion E. exists []. by rewrite app_nil_r.
    - destruct (play_move _ _ _) as [[|] b1]; simpl in E.
      + destruct (boolean_negamax_tt fuel _) as [r1 s1| |] eqn:Erec;
          try discriminate.
        apply IH in Erec as [l1 E1]. simpl in E1.
        destruct r1; simpl in E.
        * apply IHl in E as [l2 E2]. simpl in E2.
          exists (l1 ++ l2). by rewrite E2, E1, app_assoc.
        * destruct (format_point _) as [text|]; inversion E. simpl.
          exists (l1 ++ [Py.lower text]). by rewrite E1, app_assoc.
      + by apply IHl in E. }
  destruct (deliver s) as [[] s0| |] eqn:Ed; try discriminate.
  apply deliver_board in Ed as (_ & <- & _).
  destruct (tt_lookup _ _);
    [inversion E; exists []; by rewrite app_nil_r |].
  destruct (_ =? _)%nat; [inversion E; exists []; by rewrite app_nil_r |].
  destruct (_ =? _)%nat; [inversion E; exists []; by rewrite app_nil_r |].
  by eapply Hloop.
Qed.

End Bookkeeping.

(** ** The [solve] command *)

Section Solve.

Context `{BoardOps}.

Variable calls_per_second : nat.

(** [solve_cmd] never writes to the live board. *)
Lemma solve_cmd_live_board (args : list string) (c : GtpConnection) :
  match solve_cmd calls_per_second args c with
  | Returns _ c' | Raises _ c' => live_board c' = live_board c
  | OutOfFuel => True
  end.
Proof.
  unfold solve_cmd. cbn -[boolean_negamax_tt search_fuel].
  destruct (boolean_negamax_tt _ _) as [[|] s|e s|]; simpl; try done.
  - destruct (rev _); [done |].
    destruct (Py.index _ _) as [[color|]|]; simpl; try done;
      by destruct (answers args).
  - destruct (Py.index _ _) as [color|]; simpl; [|done].
    by destruct (answers args).
  - by destruct (answers args).
Qed.

(** The answers of [solve]: on a computed loss the colour of the
    opponent; on a computed win with a move on the trail the colour of the
    side to move and the last move recorded. *)
Lemma solve_cmd_answers (c : GtpConnection) (solved : bool) (s : search) :
  current_player (live_board c) = BLACK
  \/ current_player (live_board c) = WHITE ->
  solve_search calls_per_second c = Returns solved s ->
  let c' := with_pending_alarm c (alarm s) in
  let to_play :=
    if current_player (live_board c) =? BLACK then "b" else "w" in
  let other :=
    if current_player (live_board c) =? BLACK then "w" else "b" in
  (solved = false ->
   solve_cmd calls_per_second [] c = Returns None (respond c' other))
  /\ (forall recorded move,
         solved = true -> winning_moves s = recorded ++ [move] ->
         solve_cmd calls_per_second [] c
         = Returns (Some move) (respond c' (to_play +:+ " " +:+ move))).
Proof.
  intros Hplayer Esearch. unfold solve_cmd, solve_search, copy in *.
  cbn -[boolean_negamax_tt search_fuel] in *. rewrite Esearch. split.
  - intros ->. by destruct Hplayer as [-> | ->].
  - intros recorded move -> ->. rewrite rev_unit.
    by destruct Hplayer as [-> | ->].
Qed.

(** When the opponent has a legal move on the live board, a search that
    returns true has recorded a move: the trail is not empty when
    [solve_cmd] pops it. *)
Lemma solve_search_records_move (c : GtpConnection) (s : search) :
  generate_legal_moves (live_board c)
    (opponent (current_player (live_board c))) <> [] ->
  solve_search calls_per_second c = Returns true s ->
  exists recorded move, winning_moves s = recorded ++ [move].
Proof.
  intros Hopp E. unfold solve_search, search_fuel, copy in E. simpl in E.
  destruct (deliver _) as [[] s0| |] eqn:Ed; try discriminate.
  apply deliver_board in Ed as (Hb & _ & Htt). simpl in Hb, Htt.
  rewrite Hb, Htt in E. unfold tt_lookup, tt_clear in E.
  rewrite lookup_empty in E.
  destruct (_ =? _)%nat; [discriminate |].
  destruct (generate_legal_moves (live_board c)
              (opponent (current_player (live_board c)))); [done |].
  simpl in E. apply explore_first_proof in E.
  destruct E as (before & move & after & sm & _ & _ & Hproves).
  destruct Hproves as (child_state & s1 & text & _ & _ & _ & ->).
  simpl. by eexists _, _.
Qed.

(** C10.  The handler around the search catches every exception, whatever
    raised it: the alarm, or anything else inside the search.  [solve]
    then answers "unknown", or nothing when it was called by [genmove]
    (its first argument is "genmove"); it returns [None], the live board
    is as before, and no exception reaches the command dispatcher. *)
Theorem solve_cmd_catches_every_exception (args : list string)
  (c : GtpConnection) (e : exn) (s : search) :
  solve_search calls_per_second c = Raises e s ->
  exists c',
    solve_cmd calls_per_second args c = Returns None c'
    /\ live_board c' = live_board c
    /\ stdout c'
       = stdout c
         ++ (if answers args then ["= unknown" +:+ newline +:+ newline]
             else [])
    /\ answers [] = true
    /\ answers ["genmove"%string] = false.
Proof.
  intros Esearch. unfold solve_cmd, solve_search, copy in *.
  cbn -[boolean_negamax_tt search_fuel] in *. rewrite Esearch.
  eexists. split; [done |].
  destruct (answers args); simpl; [done | by rewrite app_nil_r].
Qed.

(** A search that returns leaves the alarm of a positive time limit
    pending: [solve_cmd] does not cancel it. *)
Lemma solve_cmd_leaves_alarm_pending (args : list string) (c : GtpConnection)
  (solved : bool) (s : search) :
  timelimit c <> O ->
  solve_search calls_per_second c = Returns solved s ->
  match solve_cmd calls_per_second args c with
  | Returns _ c' | Raises _ c' => is_Some (pending_alarm c')
  | OutOfFuel => False
  end.
Proof.
  intros Hlimit Esearch. unfold solve_search in Esearch.
  assert (is_Some (alarm s)) as Ha.
  { eapply boolean_negamax_tt_keeps_alarm; [exact Esearch |]. simpl.
    unfold signal_alarm. by destruct (timelimit c). }
  unfold solve_cmd, copy in *. cbn -[boolean_negamax_tt search_fuel] in *.
  rewrite Esearch.
  destruct solved.
  - destruct (rev _); [done |].
    destruct (Py.index _ _) as [[color|]|]; simpl; try done;
      by destruct (answers args).
  - destruct (Py.index _ _) as [color|]; simpl; [|done].
    by destruct (answers args).
Qed.

(** A pending alarm goes off once its time has passed, outside of any
    [solve]. *)
Lemma idle_delivers_pending_alarm (c : GtpConnection) (k ticks : nat) :
  pending_alarm c = Some k -> (k <= ticks)%nat ->
  idle ticks c = Raises signal_handler (with_pending_alarm c None).
Proof.
  intros Hk Hticks. unfold idle. rewrite Hk.
  by destruct (Nat.leb_spec k ticks); [|lia].
Qed.

End Solve.

(** ** The NoGo board satisfies the laws of the Board abstraction *)

Lemma nogo_get_EMPTY (cells : list Z) (p : Z) :
  NoGo.get cells p = EMPTY -> 0 <= p /\ cells !! Z.to_nat p = Some EMPTY.
Proof.
  unfold NoGo.get. destruct (Z.ltb_spec p 0); [discriminate |].
  destruct (cells !! Z.to_nat p) as [cell|]; simpl; [|discriminate].
  by intros ->.
Qed.

#[global] Instance nogo_laws : BoardLaws.
Proof.
  split.
  - intros b p color b'. cbn. unfold NoGo.play_move.
    destruct ((color =? BLACK) || (color =? WHITE)) eqn:Ecolor;
      [|discriminate].
    destruct (Z.eqb_spec (NoGo.get (board b) p) EMPTY) as [Hcell|];
      [|discriminate].
    cbn [negb]. destruct (existsb _ _); [discriminate |].
    destruct (NoGo.has_liberty _ _ _); [|discriminate].
    intros [= <-]. apply nogo_get_EMPTY in Hcell as [Hp Hcell].
    repeat split; [done | done |]. unfold BLACK, WHITE, EMPTY in *. lia.
  - intros b p color b'. cbn. unfold NoGo.play_move.
    destruct (negb _); [by intros [= <-] |].
    destruct (negb _); [by intros [= <-] |].
    destruct (existsb _ _); [by intros [= <-] |].
    destruct (negb _); [by intros [= <-] | discriminate].
Qed.

(** The empty cells of an empty board are the points of its grid. *)
Lemma empty_board_on_grid (boardsize : Z) :
  0 <= boardsize -> on_grid (NoGo.empty_board boardsize).
Proof.
  intros Hsize p Hp. unfold NoGo.empty_board, NS, Zrange. simpl.
  rewrite !list_lookup_fmap.
  destruct (seq 0 _ !! Z.to_nat p) as [i|] eqn:Ei; [|discriminate].
  apply lookup_seq in Ei as [-> _]. simpl.
  replace (0 + Z.of_nat (Z.to_nat p)) with p by lia.
  destruct ((1 <=? p / (boardsize + 1)) && (p / (boardsize + 1) <=? boardsize)
            && (1 <=? p mod (boardsize + 1))
            && (p mod (boardsize + 1) <=? boardsize)) eqn:E;
    [lia | discriminate].
Qed.

(** With no alarm, the search of the empty board of a size up to 24
    returns. *)
Lemma empty_board_search_returns (boardsize : Z) :
  0 <= boardsize <= 24 ->
  exists r s',
    boolean_negamax_tt (search_fuel (NoGo.empty_board boardsize))
      (fresh_search (NoGo.empty_board boardsize) None)
    = Returns r s'.
Proof.
  intros Hsize.
  destruct (boolean_negamax_tt_returns
              (search_fuel (NoGo.empty_board boardsize))
              (fresh_search (NoGo.empty_board boardsize) None))
    as (r & s' & E & _); [done | | unfold search_fuel; simpl; lia |].
  - apply printable_on_grid; [simpl; lia |].
    apply empty_board_on_grid. lia.
  - by exists r, s'.
Qed.

(** ** The claims on concrete positions *)

(** The position [endgame_3x3] is reached from the empty 3x3 board by
    legal moves of alternating colours. *)
Lemma endgame_3x3_reached :
  NoGo.play_cmds (NoGo.empty_board 3) endgame_3x3_moves = Some endgame_3x3.
Proof. vm_compute. reflexivity. Qed.

(** On it Black, to move, has the legal moves c2 and c3, and White has
    none. *)
Lemma endgame_3x3_legal_moves :
  generate_legal_moves endgame_3x3 BLACK = [11; 15]
  /\ generate_legal_moves endgame_3x3 WHITE = [].
Proof. vm_compute. done. Qed.



(** C2 on the empty 2x2 board, searched to the end. *)
Lemma boolean_negamax_tt_restores_board_witness :
  exists r s',
    boolean_negamax_tt 5 empty_2x2_search = Returns r s'
    /\ s_board s' = NoGo.empty_board 2.
Proof.
  eexists _, _. split.
  - vm_compute. reflexivity.
  - apply (boolean_negamax_tt_restores_board 5 empty_2x2_search true).
    vm_compute. reflexivity.
Defined.

(** C3 on [lost_2x2], where neither side has a legal move and the first
    test decides, and on [endgame_3x3], where only the opponent has
    none: the value returned is in the table under the hash of the
    position. *)
Lemma boolean_negamax_tt_terminal_witness :
  (exists s',
     boolean_negamax_tt 2 (fresh_search lost_2x2 None) = Returns false s'
     /\ tt_lookup (s_tt s') (hash_code lost_2x2) = Some false
     /\ s_board s' = lost_2x2 /\ winning_moves s' = [])
  /\ (exists s',
        boolean_negamax_tt 3 (fresh_search endgame_3x3 None) = Returns true s'
        /\ tt_lookup (s_tt s') (hash_code endgame_3x3) = Some true
        /\ s_board s' = endgame_3x3 /\ winning_moves s' = []).
Proof.
  split.
  - destruct (proj1 (boolean_negamax_tt_terminal 1
                       (fresh_search lost_2x2 None)
                       (fresh_search lost_2x2 None) eq_refl eq_refl))
      as (s' & Ecall & Hstored & _ & Hboard & Htrail);
      [vm_compute; reflexivity |].
    exists s'. split; [exact Ecall |]. split; [exact Hstored |].
    split; [exact Hboard | exact Htrail].
  - destruct (proj2 (boolean_negamax_tt_terminal 2
                       (fresh_search endgame_3x3 None)
                       (fresh_search endgame_3x3 None) eq_refl eq_refl))
      as (s' & Ecall & Hstored & _ & Hboard & Htrail);
      [vm_compute; discriminate | vm_compute; reflexivity |].
    exists s'. split; [exact Ecall |]. split; [exact Hstored |].
    split; [exact Hboard | exact Htrail].
Defined.

(** C7 (failing input).  After Black a1, White b1, Black c1, White b2,
    Black b3, White a3 on a 3x3 board, the search [solve] starts returns
    true with an empty trail: it returns at the test of the opponent's
    legal moves, which records no move.  The [assert] of [solve_cmd] on
    the length of the trail fails, and without it popping would
    underflow. *)
Theorem degenerate_win_leaves_trail_empty :
  let search := solve_search 1000 (connection endgame_3x3 1) in
  NoGo.play_cmds (NoGo.empty_board 3) endgame_3x3_moves = Some endgame_3x3
  /\ value_of search = Some true
  /\ winning_moves <$> state_of search = Some []
  /\ exception_of (solve_cmd 1000 ["genmove"%string] (connection endgame_3x3 1))
     = Some AssertionError.
Proof. vm_compute. done. Qed.

(** C4 (failing input).  On the same position [solve] computes a win for
    Black and answers nothing: the failed assertion leaves [solve_cmd]
    before it responds.  The live board is untouched. *)
Theorem solve_cmd_degenerate_win_no_answer :
  let answer := solve_cmd 1000 [] (connection endgame_3x3 1) in
  value_of (solve_search 1000 (connection endgame_3x3 1)) = Some true
  /\ exception_of answer = Some AssertionError
  /\ stdout <$> state_of answer = Some []
  /\ live_board <$> state_of answer = Some endgame_3x3.
Proof. vm_compute. done. Qed.

(** C8 (failing input).  On the empty 2x2 board, with a time limit of one
    second and a machine that makes a thousand calls in a second, [solve]
    answers "b a1" after eight calls; the alarm is still pending when
    [solve_cmd] has returned, and it goes off 992 calls later, while the
    connection waits for the next command. *)
Theorem alarm_outlives_solve :
  let answer := solve_cmd 1000 [] (connection (NoGo.empty_board 2) 1) in
  value_of answer = Some (Some "a1"%string)
  /\ stdout <$> state_of answer = Some ["= b a1" +:+ newline +:+ newline]
  /\ pending_alarm <$> state_of answer = Some (Some 992%nat)
  /\ (c' ← state_of answer; exception_of (idle 992 c')) = Some signal_handler.
Proof. vm_compute. done. Qed.

(** On [crowded_25x25] both sides have the legal moves y25 and z25. *)
Lemma crowded_25x25_legal_moves :
  generate_legal_moves crowded_25x25 BLACK = [674; 675]
  /\ generate_legal_moves crowded_25x25 WHITE = [674; 675].
Proof. vm_compute. done. Qed.

(** C9 (failing input).  On [crowded_25x25] the search, with no alarm
    installed, does not reach a return point: Black's move y25 proves a
    win, its row 25 is rejected by [format_point], and the [ValueError]
    leaves every call of the search. *)
Theorem search_left_by_ValueError :
  let search :=
    boolean_negamax_tt (search_fuel crowded_25x25)
      (fresh_search crowded_25x25 None) in
  exception_of search = Some (ValueError EmptyString)
  /\ value_of search = None
  /\ winning_moves <$> state_of search = Some [].
Proof. vm_compute. done. Qed.

Lemma exception_of_Some {St A : Type} (o : outcome St A) (e : exn) :
  exception_of o = Some e -> exists s, o = Raises e s.
Proof. destruct o as [a s|e' s|]; intros [= <-]. by exists s. Qed.

Lemma value_of_Some {St A : Type} (o : outcome St A) (a : A) :
  value_of o = Some a -> exists s, o = Returns a s.
Proof. destruct o as [a' s|e s|]; intros [= <-]. by exists s. Qed.

(** C10 on [crowded_25x25]: the [ValueError] of [format_point], which is
    not the exception of the alarm, is answered "unknown". *)
Lemma solve_cmd_catches_every_exception_witness :
  exists c',
    solve_cmd 1000 [] (connection crowded_25x25 1) = Returns None c'
    /\ live_board c' = live_board (connection crowded_25x25 1)
    /\ stdout c' = ["= unknown" +:+ newline +:+ newline]
    /\ answers [] = true
    /\ answers ["genmove"%string] = false.
Proof.
  assert (exception_of (solve_search 1000 (connection crowded_25x25 1))
          = Some (ValueError EmptyString)) as Hraised by (vm_compute; reflexivity).
  apply exception_of_Some in Hraised as [s Hs].
  exact (solve_cmd_catches_every_exception 1000 []
           (connection crowded_25x25 1) (ValueError EmptyString) s Hs).
Defined.

(** The alarm itself: one call in a second is not enough for the empty
    2x2 board, and [solve] answers "unknown". *)
Lemma solve_cmd_timeout :
  let answer := solve_cmd 1 [] (connection (NoGo.empty_board 2) 1) in
  value_of answer = Some None
  /\ stdout <$> state_of answer = Some ["= unknown" +:+ newline +:+ newline]
  /\ pending_alarm <$> state_of answer = Some None.
Proof. vm_compute. done. Qed.

(** ** The value theorem on a board with an exact hash *)

Lemma exact_hash_inj (b b' : GoBoard) :
  exact_hash b = exact_hash b' -> b = b'.
Proof.
  unfold exact_hash. intros E. injection E as E.
  apply (inj encode) in E.
  destruct b, b'. unfold board_key in E. simpl in E. by simplify_eq.
Qed.

Lemma exact_laws : @BoardLaws exact_ops.
Proof.
  split.
  - apply (play_move_legal (BoardLaws := nogo_laws)).
  - apply (play_move_illegal (BoardLaws := nogo_laws)).
Qed.

Lemma exact_collision_free : @collision_free exact_ops.
Proof. intros b b' E. apply exact_hash_inj in E. by subst. Qed.

(** With the exact hash, [solve] on the empty 2x2 board returns the value
    of the position: Black wins. *)
Example solve_search_value_empty_2x2 :
  value_of (@solve_search exact_ops 1000 (connection (NoGo.empty_board 2) 1))
  = Some (@value exact_ops (NoGo.empty_board 2))
  /\ @value exact_ops (NoGo.empty_board 2) = true.
Proof.
  assert (value_of (@solve_search exact_ops 1000
                      (connection (NoGo.empty_board 2) 1)) = Some true)
    as Hsolved by (vm_compute; reflexivity).
  destruct (value_of_Some _ _ Hsolved) as [s Hs].
  pose proof (@solve_search_value exact_ops exact_laws 1000 _ _ _
                exact_collision_free Hs) as Hvalue.
  split; [rewrite Hsolved; f_equal; exact Hvalue | symmetry; exact Hvalue].
Qed.

(** * Further properties *)

(** ** The transposition table during a search *)

Section Table.

Context `{BoardLaws}.

Lemma explore_keeps_entries (recurse : search -> outcome search bool)
  (b : GoBoard) (t : TranspositionTable) :
  (forall s r s', recurse s = Returns r s' -> s_board s' = s_board s) ->
  (forall s s', state_of (recurse s) = Some s' -> s_tt s ⊆ s_tt s') ->
  t !! hash_code b = None ->
  forall legal_moves s s',
    s_board s = b -> t ⊆ s_tt s ->
    state_of (explore recurse legal_moves s) = Some s' -> t ⊆ s_tt s'.
Proof.
  intros Hboard Hrec Hmiss legal_moves.
  induction legal_moves as [|move rest IH]; intros s s' Hs Ht E; simpl in E.
  - injection E as <-. simpl. rewrite Hs.
    by apply insert_subseteq_r.
  - destruct (play_move (s_board s) move (current_player (s_board s)))
      as [[|] b1] eqn:Eplay; simpl in E.
    + apply play_move_legal in Eplay as (_ & Hcell & _ & ->).
      destruct (recurse _) as [r1 s1| e s1|] eqn:Erec; [| |done].
      * pose proof (Hboard _ _ _ Erec) as Hb1. simpl in Hb1.
        assert (t ⊆ s_tt s1) as Ht1.
        { etrans; [exact Ht |].
          change (s_tt s) with
            (s_tt (with_board s (played (s_board s) move
                                   (current_player (s_board s))))).
          apply Hrec. by rewrite Erec. }
        rewrite Hb1, undo_played in E by done.
        destruct r1; simpl in E.
        -- eapply IH in E; [done | done | done].
        -- destruct (format_point _); injection E as <-; simpl.
           ++ rewrite Hs. by apply insert_subseteq_r.
           ++ done.
      * injection E as <-. etrans; [exact Ht |].
        change (s_tt s) with
          (s_tt (with_board s (played (s_board s) move
                                 (current_player (s_board s))))).
        apply Hrec. by rewrite Erec.
    + apply play_move_illegal in Eplay as ->.
      eapply IH in E; [done | done | done].
Qed.

(** X1.  The table only grows: every entry it holds when a call starts is
    still there, with the same value, when the call returns or is left by
    an exception. *)
Theorem boolean_negamax_tt_keeps_entries (fuel : nat) (s s' : search) :
  state_of (boolean_negamax_tt fuel s) = Some s' -> s_tt s ⊆ s_tt s'.
Proof.
  revert s s'. induction fuel as [|fuel IH]; intros s s' E; [done |].
  simpl in E. unfold deliver in E.
  assert (forall s0, s_board s0 = s_board s -> s_tt s0 = s_tt s ->
            state_of
              match tt_lookup (s_tt s0) (hash_code (s_board s0)) with
              | Some result => Returns result s0
              | None =>
                  if (length (generate_legal_moves (s_board s0)
                                (current_player (s_board s0))) =? 0)%nat
                  then Returns false (storeResult s0 false)
                  else if (length (generate_legal_moves (s_board s0)
                                     (opponent (current_player (s_board s0))))
                           =? 0)%nat
                       then Returns true (storeResult s0 true)
                       else explore (boolean_negamax_tt fuel)
                              (generate_legal_moves (s_board s0)
                                 (current_player (s_board s0))) s0
              end = Some s' -> s_tt s ⊆ s_tt s') as Hbody.
  { intros s0 Hb Ht E0. rewrite <- Ht.
    destruct (tt_lookup _ _) eqn:Ehit.
    - by injection E0 as <-.
    - destruct (_ =? _)%nat.
      { injection E0 as <-. simpl. by apply insert_subseteq. }
      destruct (_ =? _)%nat.
      { injection E0 as <-. simpl. by apply insert_subseteq. }
      eapply explore_keeps_entries in E0; [done | | | done | done | done].
      + apply search_restores_board.
      + apply IH. }
  destruct (alarm s) as [[|k]|]; simpl in E.
  - by injection E as <-.
  - by apply (Hbody (with_alarm s (Some k))).
  - by apply (Hbody s).
Qed.

Lemma explore_stores_result (recurse : search -> outcome search bool)
  (b : GoBoard) :
  (forall s r s', recurse s = Returns r s' -> s_board s' = s_board s) ->
  forall legal_moves s r s',
    s_board s = b ->
    explore recurse legal_moves s = Returns r s' ->
    tt_lookup (s_tt s') (hash_code b) = Some r.
Proof.
  intros Hboard legal_moves.
  induction legal_moves as [|move rest IH]; intros s r s' Hs E; simpl in E.
  - injection E as <- <-. rewrite <- Hs. apply storeResult_effect.
  - destruct (play_move (s_board s) move (current_player (s_board s)))
      as [[|] b1] eqn:Eplay; simpl in E.
    + apply play_move_legal in Eplay as (_ & Hcell & _ & ->).
      destruct (recurse _) as [r1 s1| |] eqn:Erec; try discriminate.
      apply Hboard in Erec. simpl in Erec.
      rewrite Erec, undo_played in E by done.
      destruct r1; simpl in E.
      * by eapply IH in E.
      * destruct (format_point _); [|discriminate].
        injection E as <- <-. unfold tt_lookup, tt_store. simpl.
        rewrite Hs. apply lookup_insert_eq.
    + apply play_move_illegal in Eplay as ->. by eapply IH in E.
Qed.

(** Memoisation: a call that returns has the value it returns in the
    table, under the hash of its position. *)
Lemma search_stores_result (fuel : nat) (s : search) (r : bool)
  (s' : search) :
  boolean_negamax_tt fuel s = Returns r s' ->
  tt_lookup (s_tt s') (hash_code (s_board s)) = Some r.
Proof.
  destruct fuel as [|fuel]; [done |]. simpl.
  destruct (deliver s) as [[] s0| |] eqn:Ed; try discriminate.
  apply deliver_board in Ed as (<- & _ & _).
  destruct (tt_lookup _ _) as [cached|] eqn:Ehit.
  - by intros [= <- <-].
  - destruct (_ =? _)%nat; [intros [= <- <-]; apply storeResult_effect |].
    destruct (_ =? _)%nat; [intros [= <- <-]; apply storeResult_effect |].
    apply explore_stores_result; [apply search_restores_board | done].
Qed.

(** X2.  Memoisation: once a call has returned, the same call made again
    on the state it left, with the alarm not due, returns the same value
    from the table: the board, the trail and the table stay as they are. *)
Theorem boolean_negamax_tt_answers_again (fuel fuel' : nat) (s : search)
  (r : bool) (s' : search) :
  boolean_negamax_tt fuel s = Returns r s' ->
  alarm s' <> Some O ->
  exists s'',
    boolean_negamax_tt (S fuel') s' = Returns r s''
    /\ s_board s'' = s_board s /\ winning_moves s'' = winning_moves s'
    /\ s_tt s'' = s_tt s'.
Proof.
  intros E Halarm.
  pose proof (search_stores_result _ _ _ _ E) as Hstored.
  pose proof (search_restores_board _ _ _ _ E) as Hboard.
  simpl. unfold deliver.
  destruct (alarm s') as [[|k]|]; [done | |]; simpl;
    rewrite Hboard, Hstored; by eexists.
Qed.

End Table.

(** A search of the empty 2x2 board that starts with the entry of
    [lost_2x2] in its table. *)
Lemma boolean_negamax_tt_keeps_entries_witness :
  let s :=
    with_board (storeResult (fresh_search lost_2x2 None) false)
               (NoGo.empty_board 2) in
  exists s',
    state_of (boolean_negamax_tt 5 s) = Some s'
    /\ s_tt s !! hash_code lost_2x2 = Some false
    /\ s_tt s ⊆ s_tt s'.
Proof.
  intros s.
  destruct (state_of (boolean_negamax_tt 5 s)) as [s'|] eqn:E;
    [| vm_compute in E; discriminate].
  exists s'. split; [reflexivity |]. split; [vm_compute; reflexivity |].
  exact (boolean_negamax_tt_keeps_entries (H0 := nogo_laws) 5 s s' E).
Defined.

(** The search of the empty 2x2 board, made again on the state it
    left. *)
Lemma boolean_negamax_tt_answers_again_witness :
  exists r s' s'',
    boolean_negamax_tt 5 empty_2x2_search = Returns r s'
    /\ boolean_negamax_tt 1 s' = Returns r s''
    /\ s_board s'' = NoGo.empty_board 2
    /\ winning_moves s'' = winning_moves s'
    /\ s_tt s'' = s_tt s'.
Proof.
  destruct (boolean_negamax_tt 5 empty_2x2_search) as [r s'| |] eqn:E;
    [| vm_compute in E; discriminate | vm_compute in E; discriminate].
  assert (alarm s' <> Some O) as Halarm.
  { intros Hdue. apply (f_equal (fun o => alarm <$> state_of o)) in E.
    vm_compute in E, Hdue. congruence. }
  destruct (boolean_negamax_tt_answers_again (H0 := nogo_laws) 5 0
              empty_2x2_search r s' E Halarm) as (s'' & Eagain & Hrest).
  exists r, s', s''. split; [reflexivity |]. split; [exact Eagain |].
  exact Hrest.
Defined.

Section Abort.

Context `{BoardLaws}.

Lemma explore_raises_sound (recurse : search -> outcome search bool) :
  (forall s r s', sound (s_tt s) -> recurse s = Returns r s' ->
                  sound (s_tt s')) ->
  (forall s e s', sound (s_tt s) -> recurse s = Raises e s' ->
                  sound (s_tt s')) ->
  forall legal_moves s e s',
    sound (s_tt s) -> explore recurse legal_moves s = Raises e s' ->
    sound (s_tt s').
Proof.
  intros Hret Hraise legal_moves.
  induction legal_moves as [|move rest IH]; intros s e s' Ht E; simpl in E;
    [done |].
  destruct (play_move (s_board s) move (current_player (s_board s)))
    as [[|] b1] eqn:Eplay; simpl in E.
  - destruct (recurse _) as [r1 s1| e1 s1|] eqn:Erec; [| |done].
    + apply Hret in Erec; [| done].
      destruct r1; simpl in E.
      * by eapply IH in E.
      * destruct (format_point _); [done |]. by injection E as <- <-.
    + injection E as <- <-. by eapply Hraise in Erec.
  - by eapply IH in E.
Qed.

(** X3.  An aborted search leaves no wrong entry behind: when positions
    with the same hash have the same value and the table is sound, the
    table is still sound after a call that returned and after a call that
    was left by an exception, the alarm's included. *)
Theorem boolean_negamax_tt_keeps_sound (fuel : nat) (s s' : search) :
  collision_free -> sound (s_tt s) ->
  state_of (boolean_negamax_tt fuel s) = Some s' -> sound (s_tt s').
Proof.
  intros Hfree. revert s s'.
  induction fuel as [|fuel IH]; intros s s' Ht E; [done |].
  destruct (boolean_negamax_tt (S fuel) s) as [r s1|e s1|] eqn:Ecall;
    [| |done]; injection E as ->.
  - by eapply boolean_negamax_tt_value in Ecall as [_ Hsound].
  - simpl in Ecall. unfold deliver in Ecall.
    assert (forall s0, s_tt s0 = s_tt s ->
              match tt_lookup (s_tt s0) (hash_code (s_board s0)) with
              | Some result => Returns result s0
              | None =>
                  if (length (generate_legal_moves (s_board s0)
                                (current_player (s_board s0))) =? 0)%nat
                  then Returns false (storeResult s0 false)
                  else if (length (generate_legal_moves (s_board s0)
                                     (opponent (current_player (s_board s0))))
                           =? 0)%nat
                       then Returns true (storeResult s0 true)
                       else explore (boolean_negamax_tt fuel)
                              (generate_legal_moves (s_board s0)
                                 (current_player (s_board s0))) s0
              end = Raises e s' -> sound (s_tt s')) as Hbody.
    { intros s0 Htt E0. rewrite <- Htt in Ht.
      destruct (tt_lookup _ _); [done |].
      destruct (_ =? _)%nat; [done |].
      destruct (_ =? _)%nat; [done |].
      eapply explore_raises_sound in E0; [done | | | done].
      - intros s2 r2 s2' Ht2 E2.
        by eapply boolean_negamax_tt_value in E2 as [_ Hsound].
      - intros s2 e2 s2' Ht2 E2. apply (IH s2); [done | by rewrite E2]. }
    destruct (alarm s) as [[|k]|]; simpl in Ecall.
    + by injection Ecall as <- <-.
    + by apply (Hbody (with_alarm s (Some k))).
    + by apply (Hbody s).
Qed.

End Abort.

(** A search of the empty 2x2 board with the exact hash, stopped by the
    alarm at its fourth call. *)
Lemma boolean_negamax_tt_keeps_sound_witness :
  exists s',
    @boolean_negamax_tt exact_ops 5 (fresh_search (NoGo.empty_board 2) (Some 3%nat))
    = Raises signal_handler s'
    /\ @sound exact_ops (s_tt s').
Proof.
  assert (exception_of
            (@boolean_negamax_tt exact_ops 5
               (fresh_search (NoGo.empty_board 2) (Some 3%nat)))
          = Some signal_handler) as Hraised by (vm_compute; reflexivity).
  apply exception_of_Some in Hraised as [s' Hs']. exists s'.
  split; [exact Hs' |].
  apply (@boolean_negamax_tt_keeps_sound exact_ops exact_laws 5
           (fresh_search (NoGo.empty_board 2) (Some 3%nat)) s'
           exact_collision_free).
  - intros b v. unfold tt_lookup. simpl. by rewrite lookup_empty.
  - by rewrite Hs'.
Defined.

(** ** More on the notation codec *)

Lemma column_letter_range (col_c : ascii) :
  negb (("a" <=? col_c)%char && (col_c <=? "z")%char) || Ascii.eqb col_c "i"
  = false ->
  1 <= (if (col_c <? "i")%char
        then Py.code col_c - Py.code "a" + 1
        else Py.code col_c - Py.code "a") <= 25.
Proof.
  assert (forallb
            (fun c =>
               (negb (("a" <=? c)%char && (c <=? "z")%char) || Ascii.eqb c "i")
               || ((1 <=? (if (c <? "i")%char
                           then Py.code c - Py.code "a" + 1
                           else Py.code c - Py.code "a"))
                   && ((if (c <? "i")%char
                        then Py.code c - Py.code "a" + 1
                        else Py.code c - Py.code "a") <=? 25)))
            all_ascii = true) as Hall by (vm_compute; reflexivity).
  rewrite forallb_forall in Hall. specialize (Hall col_c (In_all_ascii col_c)).
  intros Hletter. rewrite Hletter in Hall. simpl in Hall. lia.
Qed.

(** X4.  What [move_to_coord] promises: a coordinate it returns has its
    row and its column between 1 and the board size, and the board size is
    one the module supports. *)
Theorem move_to_coord_in_range (point_str : string) (board_size row col : Z) :
  move_to_coord point_str board_size = Ok (Some (row, col)) ->
  2 <= board_size <= MAXSIZE
  /\ 1 <= row <= board_size /\ 1 <= col <= board_size.
Proof.
  unfold move_to_coord, MAXSIZE.
  destruct ((2 <=? board_size) && (board_size <=? 25)) eqn:Esize;
    [|discriminate]. cbn [negb].
  destruct (String.eqb _ _); [discriminate |].
  destruct (Py.lower point_str) as [|col_c rest]; [discriminate |].
  destruct (negb _ || _) eqn:Eletter; [discriminate |].
  apply column_letter_range in Eletter. cbv zeta.
  destruct (Py.int rest) as [n|]; [|discriminate].
  destruct (Z.ltb_spec n 1); [discriminate |].
  destruct (negb _) eqn:Ebounds; [discriminate |].
  intros [= <- <-]. lia.
Qed.

(** X5.  [point_to_coord] inverts the index [NS * row + col] of the board
    array, [NS] being the board size and one: a coordinate whose column is
    between 0 and the board size is found again from its index, the index
    is found again from the coordinate, and PASS stays PASS. *)
Theorem point_to_coord_inverts_index (boardsize : Z) :
  0 <= boardsize ->
  (forall row col, 0 <= col <= boardsize ->
     point_to_coord (Some ((boardsize + 1) * row + col)) boardsize
     = Some (row, col))
  /\ (forall p row col,
        point_to_coord (Some p) boardsize = Some (row, col) ->
        (boardsize + 1) * row + col = p /\ 0 <= col <= boardsize)
  /\ point_to_coord PASS boardsize = PASS.
Proof.
  intros Hsize. unfold point_to_coord, Py.divmod. split; [|split; [|done]].
  - intros row col Hcol. f_equal. f_equal.
    + symmetry. apply (Z.div_unique _ _ row col); lia.
    + symmetry. apply (Z.mod_unique _ _ row col); lia.
  - intros p row col [= <- <-].
    pose proof (Z.div_mod p (boardsize + 1) ltac:(lia)).
    pose proof (Z.mod_pos_bound p (boardsize + 1) ltac:(lia)). lia.
Qed.

(** The inverse on a 9x9 board. *)
Lemma point_to_coord_inverts_index_witness :
  point_to_coord (Some ((9 + 1) * 3 + 4)) 9 = Some (3, 4).
Proof.
  apply (proj1 (point_to_coord_inverts_index 9 ltac:(lia)) 3 4). lia.
Defined.

(** A coordinate [move_to_coord] returns on a 19x19 board. *)
Lemma move_to_coord_in_range_witness :
  2 <= 19 <= MAXSIZE /\ 1 <= 17 <= 19 /\ 1 <= 16 <= 19.
Proof.
  apply (move_to_coord_in_range "Q17" 19 17 16). reflexivity.
Defined.

Lemma name_read_back_table :
  forallb (fun n =>
    forallb (fun row =>
      forallb (fun col =>
        negb ((row <=? n) && (col <=? n)) || name_read_back n row col)
      (Zrange 1 25)) (Zrange 1 25)) (Zrange 2 24) = true.
Proof. vm_compute. reflexivity. Qed.

(** X6.  The names of [gogui_rules_legal_moves_cmd] are not the notation
    of [move_to_coord]: the listing does not skip the letter I. On a board
    of any supported size, the name printed for a point is read back as
    that point only left of column 9; the name of column 9 is rejected,
    and a name beyond is read as the point one column to the left. *)
Theorem listed_name_read_back (n row col : Z) :
  2 <= n <= MAXSIZE -> 1 <= row <= n -> 1 <= col <= n ->
  exists name,
    legal_move_name (Some (row, col)) = Some name
    /\ (col < 9 -> move_to_coord (Text.upper name) n = Ok (Some (row, col)))
    /\ (col = 9 -> exists msg,
          move_to_coord (Text.upper name) n = Raise (ValueError msg))
    /\ (9 < col ->
        move_to_coord (Text.upper name) n = Ok (Some (row, col - 1))).
Proof.
  unfold MAXSIZE. intros Hn Hrow Hcol.
  pose proof name_read_back_table as T.
  rewrite forallb_forall in T.
  specialize (T n (In_Zrange 2 24 n ltac:(lia))).
  rewrite forallb_forall in T.
  specialize (T row (In_Zrange 1 25 row ltac:(lia))).
  rewrite forallb_forall in T.
  specialize (T col (In_Zrange 1 25 col ltac:(lia))).
  replace ((row <=? n) && (col <=? n)) with true in T by lia.
  cbn [negb orb] in T. unfold name_read_back in T.
  destruct (legal_move_name (Some (row, col))) as [name|]; [|discriminate].
  exists name. split; [done |].
  destruct (move_to_coord (Text.upper name) n) as [[[row' col']|]|e].
  - apply andb_prop in T as [Hr Hc]. apply Z.eqb_eq in Hr. subst row'.
    destruct (Z.ltb_spec col 9).
    + apply Z.eqb_eq in Hc. subst col'.
      split; [done |]. split; intros; exfalso; lia.
    + destruct (Z.eqb_spec col 9); [discriminate |].
      apply Z.eqb_eq in Hc. subst col'.
      split; [intros; exfalso; lia |]. split; [intros; exfalso; lia | done].
  - discriminate.
  - destruct e as [msg| | | |]; try discriminate.
    apply Z.eqb_eq in T.
    split; [intros; exfalso; lia |].
    split; [by exists msg | intros; exfalso; lia].
Qed.

(** The names of J9 and K10 on a 19x19 board. *)
Lemma listed_name_read_back_witness :
  exists name,
    legal_move_name (Some (10, 10)) = Some name
    /\ move_to_coord (Text.upper name) 19 = Ok (Some (10, 10 - 1)).
Proof.
  destruct (listed_name_read_back 19 10 10) as (name & Hname & _ & _ & Hbeyond);
    [unfold MAXSIZE; lia | lia | lia |].
  exists name. split; [exact Hname | apply Hbeyond; lia].
Defined.

(** ** The move [solve] reports *)

Section Found.

Context `{BoardLaws}.

Variable calls_per_second : nat.

Lemma all_refuted_board (fuel : nat) (moves : list Z) (s sm : search) :
  all_refuted (boolean_negamax_tt fuel) moves s sm ->
  s_board sm = s_board s.
Proof.
  induction 1 as [|move rest s s1 sm Hmove _ IH]; [done |].
  rewrite IH. destruct Hmove as [b1 Eplay | ch s1 Ech Erec]; simpl.
  - by apply play_move_illegal in Eplay.
  - apply child_Some in Ech as [Eplay Ech].
    apply play_move_legal in Eplay as (_ & Hcell & _ & Eb).
    apply search_restores_board in Erec. rewrite Erec, Eb.
    by apply undo_played.
Qed.

Lemma all_refuted_sound (fuel : nat) (moves : list Z) (s sm : search) :
  collision_free -> sound (s_tt s) ->
  all_refuted (boolean_negamax_tt fuel) moves s sm -> sound (s_tt sm).
Proof.
  intros Hfree Ht. induction 1 as [|move rest s s1 sm Hmove _ IH]; [done |].
  apply IH. destruct Hmove as [b1 Eplay | ch s1 Ech Erec]; simpl; [done |].
  apply child_Some in Ech as [_ Ech].
  eapply boolean_negamax_tt_value in Erec as [_ Hsound]; [done | done |].
  by rewrite Ech.
Qed.

Lemma restored_board (fuel : nat) (sm : search) (move : Z) (ch : search)
  (r : bool) (s1 : search) :
  child sm move = Some ch ->
  boolean_negamax_tt fuel ch = Returns r s1 ->
  s_board (restored sm move s1) = s_board sm.
Proof.
  intros Ech Erec. apply child_Some in Ech as [Eplay Ech].
  apply play_move_legal in Eplay as (_ & Hcell & _ & Eb).
  apply search_restores_board in Erec. unfold restored. simpl.
  rewrite Erec, Eb. by apply undo_played.
Qed.

(** What is behind a move returned by [solve_cmd]: a legal move of the
    side to move, explored on the board as it is, after which the
    recursive call returned false, and whose notation is the text
    returned. *)
Lemma solve_cmd_found (args : list string) (c c' : GtpConnection)
  (found : string) :
  solve_cmd calls_per_second args c = Returns (Some found) c' ->
  exists move sm ch s1 text,
    In move (generate_legal_moves (live_board c)
               (current_player (live_board c)))
    /\ s_board sm = live_board c
    /\ (collision_free -> sound (s_tt sm))
    /\ child sm move = Some ch
    /\ boolean_negamax_tt (count_empty (live_board c)) ch = Returns false s1
    /\ format_point (point_to_coord (Some move) (size (live_board c)))
       = Ok text
    /\ found = Py.lower text
    /\ live_board c' = live_board c
    /\ timelimit c' = timelimit c.
Proof.
  intros E.
  assert (exists s, solve_search calls_per_second c = Returns true s
                    /\ exists recorded, winning_moves s = recorded ++ [found])
    as (s & Esearch & recorded & Etrail).
  { unfold solve_cmd, solve_search, copy in *.
    cbn -[boolean_negamax_tt search_fuel] in *.
    destruct (boolean_negamax_tt _ _) as [[|] s|e s|]; try discriminate.
    - exists s. split; [done |].
      destruct (rev (winning_moves s)) as [|move rest] eqn:Erev;
        [discriminate |].
      exists (rev rest).
      rewrite <- (rev_involutive (winning_moves s)), Erev. simpl.
      destruct (Py.index _ _) as [[color|]|]; try discriminate;
        destruct (answers args); try discriminate; by injection E as -> _.
    - destruct (Py.index _ _); [|discriminate].
      destruct (answers args); discriminate. }
  assert (live_board c' = live_board c /\ timelimit c' = timelimit c)
    as [Hlive Hlimit].
  { pose proof (solve_cmd_live_board calls_per_second args c) as Hb.
    unfold solve_cmd, copy in *.
    cbn -[boolean_negamax_tt search_fuel] in *.
    destruct (boolean_negamax_tt _ _) as [[|] s2|e s2|]; try discriminate.
    - destruct (rev _); [discriminate |].
      destruct (Py.index _ _) as [[color|]|]; try discriminate;
        destruct (answers args); try discriminate; by injection E as _ <-.
    - destruct (Py.index _ _); [|discriminate].
      destruct (answers args); discriminate. }
  unfold solve_search, search_fuel, copy in Esearch. simpl in Esearch.
  destruct (deliver _) as [[] s0| |] eqn:Ed; try discriminate.
  apply deliver_board in Ed as (Hb & Hw & Htt). simpl in Hb, Hw, Htt.
  rewrite Hb, Htt in Esearch. unfold tt_lookup, tt_clear in Esearch.
  rewrite lookup_empty in Esearch.
  destruct (_ =? _)%nat; [discriminate |].
  destruct (_ =? _)%nat.
  { injection Esearch as <-. simpl in Etrail. rewrite Hw in Etrail.
    by destruct recorded. }
  apply explore_first_proof in Esearch.
  destruct Esearch as (before & move & after & sm & Elegal & Hall & Hproves).
  destruct Hproves as (ch & s1 & text & Ech & Erec & Etext & ->).
  pose proof (all_refuted_board _ _ _ _ Hall) as Hsm. rewrite Hb in Hsm.
  rewrite (restored_board _ _ _ _ _ _ Ech Erec), Hsm in Etext.
  exists move, sm, ch, s1, text.
  split; [rewrite Elegal; apply in_elt |].
  split; [done |]. split.
  { intros Hfree. eapply all_refuted_sound; [done | | done].
    rewrite Htt. intros b v. unfold tt_lookup, tt_clear.
    by rewrite lookup_empty. }
  split; [done |]. split; [done |]. split; [done |].
  split; [| done].
  simpl in Etrail. apply app_inj_tail in Etrail as [_ Efound]. done.
Qed.

(** X7.  The move [solve] reports wins: when positions of equal hash have
    equal value, a move returned by [solve_cmd] is the notation of a legal
    move of the side to move that leads to a position lost for the
    opponent, and the live board is as before. *)
Theorem solve_cmd_reports_winning_move (args : list string)
  (c c' : GtpConnection) (found : string) :
  collision_free ->
  solve_cmd calls_per_second args c = Returns (Some found) c' ->
  exists move text,
    In move (generate_legal_moves (live_board c)
               (current_player (live_board c)))
    /\ winning_move (live_board c) move = true
    /\ value (live_board c) = true
    /\ format_point (point_to_coord (Some move) (size (live_board c)))
       = Ok text
    /\ found = Py.lower text
    /\ live_board c' = live_board c.
Proof.
  intros Hfree E.
  pose proof E as Efound. apply solve_cmd_found in Efound.
  destruct Efound as (move & sm & ch & s1 & text & Hin & Hsm & Hsound & Ech
                      & Erec & Etext & -> & Hlive & _).
  exists move, text. split; [done |].
  assert (winning_move (live_board c) move = true) as Hwin.
  { apply child_Some in Ech as [Eplay Ech]. unfold winning_move.
    rewrite <- Hsm, Eplay. simpl.
    eapply boolean_negamax_tt_value in Erec as [Hvalue _];
      [| done | rewrite Ech; by apply Hsound].
    by rewrite <- Hvalue. }
  split; [done |]. split; [| done].
  assert (exists s, solve_search calls_per_second c = Returns true s)
    as [s Esearch].
  { unfold solve_cmd, solve_search, copy in *.
    cbn -[boolean_negamax_tt search_fuel] in *.
    destruct (boolean_negamax_tt _ _) as [[|] s|e s|]; try discriminate.
    - by exists s.
    - destruct (Py.index _ _); [|discriminate].
      destruct (answers args); discriminate. }
  symmetry. by eapply solve_search_value.
Qed.

(** With the fuel [solve_cmd] gives it the search never runs out. *)
Lemma solve_cmd_ends (args : list string) (c : GtpConnection) :
  solve_cmd calls_per_second args c <> OutOfFuel.
Proof.
  pose proof (boolean_negamax_tt_terminates (search_fuel (live_board c))
                (mkSearch (live_board c) [] ∅
                   (signal_alarm calls_per_second (timelimit c)))) as Hend.
  unfold solve_cmd, copy, tt_clear.
  cbn -[boolean_negamax_tt search_fuel].
  destruct (boolean_negamax_tt _ _) as [[|] s|e s|].
  - destruct (rev _); [done |].
    destruct (Py.index _ _) as [[color|]|]; try done;
      by destruct (answers args).
  - by destruct (Py.index _ _).
  - done.
  - exfalso. apply Hend; [unfold search_fuel; simpl; lia | done].
Qed.

End Found.

(** [solve] on the empty 2x2 board with the exact hash: the move
    returned, a1, wins. *)
Lemma solve_cmd_reports_winning_move_witness :
  exists c',
    @solve_cmd exact_ops 1000 [] (connection (NoGo.empty_board 2) 1)
    = Returns (Some "a1"%string) c'
    /\ exists move text,
         In move (generate_legal_moves (NoGo.empty_board 2) BLACK)
         /\ @winning_move exact_ops (NoGo.empty_board 2) move = true
         /\ @value exact_ops (NoGo.empty_board 2) = true
         /\ format_point (point_to_coord (Some move) 2) = Ok text
         /\ "a1"%string = Py.lower text
         /\ live_board c' = NoGo.empty_board 2.
Proof.
  assert (value_of (@solve_cmd exact_ops 1000 []
                      (connection (NoGo.empty_board 2) 1))
          = Some (Some "a1"%string)) as Hfound by (vm_compute; reflexivity).
  apply value_of_Some in Hfound as [c' Hc']. exists c'. split; [exact Hc' |].
  exact (@solve_cmd_reports_winning_move exact_ops exact_laws 1000 []
           (connection (NoGo.empty_board 2) 1) c' "a1"%string
           exact_collision_free Hc').
Defined.

(** ** The [play] command *)

Lemma respond_stdout (c : GtpConnection) (text : string) :
  stdout (respond c text)
  = stdout c ++ ["= " +:+ text +:+ newline +:+ newline]
  /\ live_board (respond c text) = live_board c
  /\ timelimit (respond c text) = timelimit c
  /\ pending_alarm (respond c text) = pending_alarm c.
Proof. done. Qed.

Lemma with_live_board_same (c : GtpConnection) :
  with_live_board c (live_board c) = c.
Proof. by destruct c. Qed.

(** A branch of [play_cmd] that writes an answer and changes nothing
    else. *)
Ltac answered :=
  eexists; split; [reflexivity |]; left; eexists;
  split; [| reflexivity]; simpl; discriminate.

Section Play.

Context `{BoardLaws}.

(** X8.  [play] answers once and places at most one stone. Whatever its
    arguments, [play_cmd] returns; either it has written one answer that
    is not empty, "illegal move" or "Error: " and a text, and the
    connection is otherwise as before, or its two first arguments name a
    colour and a point of the board, the Board accepted the move, the
    stone is on the live board and the answer is empty. *)
Theorem play_cmd_places_one_stone (args : list string) (c : GtpConnection) :
  exists c',
    play_cmd args c = Done () c'
    /\ ((exists text, text <> EmptyString /\ c' = respond c text)
        \/ (exists a0 a1 rest color row col,
              args = a0 :: a1 :: rest
              /\ color_to_int (Py.lower a0) = Some color
              /\ move_to_coord a1 (size (live_board c)) = Ok (Some (row, col))
              /\ c' = respond
                        (with_live_board c
                           (played (live_board c)
                              (coord_to_point row col (size (live_board c)))
                              color))
                        EmptyString)).
Proof.
  unfold play_cmd, play_cmd_try.
  destruct args as [|a0 [|a1 rest]]; [answered | answered |].
  destruct (color_to_int (Py.lower a0)) as [color|] eqn:Ecolor; [| answered].
  destruct (String.eqb (Py.lower a1) "pass"); [answered |].
  destruct (move_to_coord a1 (size (live_board c))) as [[[row col]|]|e]
    eqn:Ecoord.
  - destruct (play_move (live_board c)
                (coord_to_point row col (size (live_board c))) color)
      as [[|] b'] eqn:Eplay; simpl.
    + apply play_move_legal in Eplay as (_ & _ & _ & ->).
      eexists. split; [reflexivity |]. right.
      by exists a0, a1, rest, color, row, col.
    + apply play_move_illegal in Eplay as ->.
      rewrite with_live_board_same. answered.
  - answered.
  - destruct e; answered.
Qed.

End Play.

(** [play] on the empty 9x9 board. *)
Lemma play_cmd_places_one_stone_witness :
  exists c',
    play_cmd ["b"; "c3"]%string (connection (NoGo.empty_board 9) 1)
    = Done () c'
    /\ board (live_board c') !! 33%nat = Some BLACK.
Proof.
  destruct (play_cmd_places_one_stone (H0 := nogo_laws) ["b"; "c3"]%string
              (connection (NoGo.empty_board 9) 1))
    as (c' & Eplay & Hcases).
  exists c'. split; [exact Eplay |].
  vm_compute in Eplay. injection Eplay as <-. reflexivity.
Defined.

(** ** The [genmove] command *)

Lemma lower_char_idempotent (c : ascii) :
  Py.lower_char (Py.lower_char c) = Py.lower_char c.
Proof. destruct c as [[] [] [] [] [] [] [] []]; reflexivity. Qed.

Lemma lower_idempotent (s : string) : Py.lower (Py.lower s) = Py.lower s.
Proof.
  induction s as [|c s IH]; simpl; [done |].
  by rewrite lower_char_idempotent, IH.
Qed.

(** [move_to_coord] does not look at the case of its text. *)
Lemma move_to_coord_lower (point_str : string) (board_size : Z) :
  move_to_coord (Py.lower point_str) board_size
  = move_to_coord point_str board_size.
Proof. unfold move_to_coord. by rewrite lower_idempotent. Qed.

(** No board size makes a coordinate of the word "resign". *)
Lemma resign_is_no_move (board_size : Z) (b : GoBoard) :
  size b = board_size -> exists e, move_as_point "resign" b = Raise e.
Proof.
  intros <-. unfold move_as_point, move_to_coord.
  destruct (negb _); [by eexists |]. simpl. by eexists.
Qed.

Lemma string_length_app (s t : string) :
  String.length (s +:+ t) = (String.length s + String.length t)%nat.
Proof. induction s as [|a s IH]; simpl; [done | by rewrite IH]. Qed.

Lemma app_same_tail (s t tail : string) : s +:+ tail = t +:+ tail -> s = t.
Proof.
  revert t. induction s as [|a s IH]; intros [|b t] E.
  - done.
  - apply (f_equal String.length) in E.
    rewrite !string_length_app in E. simpl in E. lia.
  - apply (f_equal String.length) in E.
    rewrite !string_length_app in E. simpl in E. lia.
  - injection E as -> E. f_equal. by apply IH.
Qed.

(** Two answers that are written the same have the same text. *)
Lemma respond_inj (c1 c2 : GtpConnection) (text1 text2 : string) :
  last_response (respond c1 text1) = last_response (respond c2 text2) ->
  text1 = text2.
Proof.
  unfold last_response, respond. simpl. rewrite !last_snoc.
  intros [= E].
  change (text1 +:+ newline +:+ newline = text2 +:+ newline +:+ newline) in E.
  by apply (app_same_tail text1 text2 (newline +:+ newline)).
Qed.

Section Genmove.

Context `{BoardLaws}.

Variable calls_per_second : nat.
Variable get_move : GoBoard -> Z -> option string.
Variable is_legal : GoBoard -> Z -> Z -> bool.

(** X9.  [genmove] that answers "resign" has placed no stone: the live
    board is as before. *)
Theorem genmove_cmd_resign_keeps_board (args : list string)
  (c c' : GtpConnection) :
  genmove_cmd calls_per_second get_move is_legal args c = Done () c' ->
  last_response c' = last_response (respond c "resign") ->
  live_board c' = live_board c.
Proof.
  unfold genmove_cmd. intros E Hresign.
  destruct args as [|a0 rest]; [discriminate |].
  destruct (color_to_int _) as [color|]; [|discriminate].
  destruct (get_move _ _) as [proposal|]; [| by injection E as <-].
  pose proof (solve_cmd_live_board calls_per_second ["genmove"%string] c)
    as Hlive.
  destruct (solve_cmd _ _ _) as [[found|] c1|e c1|]; try discriminate.
  - destruct (move_as_point _ _) as [p|e] eqn:Epoint; [|discriminate].
    destruct (play_move _ _ _) as [ok b']. injection E as <-.
    apply respond_inj in Hresign. rewrite Hresign in Epoint.
    destruct (resign_is_no_move _ (live_board c1) eq_refl) as [e Ee].
    congruence.
  - destruct (move_as_point _ _) as [p|e] eqn:Epoint; [|discriminate].
    destruct (is_legal _ _ _).
    + destruct (play_move _ _ _) as [ok b']. injection E as <-.
      apply respond_inj in Hresign. rewrite Hresign in Epoint.
      destruct (resign_is_no_move _ (live_board c1) eq_refl) as [e Ee].
      congruence.
    + by injection E as <-.
Qed.

(** The notation [solve_cmd] returns for a point of the grid is read
    back by [genmove_cmd] as the index of that point. *)
Lemma found_move_as_point (b : GoBoard) (move : Z) (text : string) :
  2 <= size b <= MAXSIZE ->
  0 <= move ->
  1 <= move / NS b <= size b -> 1 <= move mod NS b <= size b ->
  format_point (point_to_coord (Some move) (size b)) = Ok text ->
  move_as_point (Py.lower (Py.lower text)) b = Ok move.
Proof.
  unfold MAXSIZE, NS. intros Hsize Hmove Hrow Hcol Etext.
  unfold point_to_coord, Py.divmod in Etext.
  set (row := move / (size b + 1)) in *.
  set (col := move mod (size b + 1)) in *.
  assert (0 <= row < MAXSIZE /\ 0 <= col < MAXSIZE) as [Hr Hc].
  { destruct (Z_lt_dec row MAXSIZE) as [Hr|Hr];
      [destruct (Z_lt_dec col MAXSIZE) as [Hc|Hc]; [lia |] |];
      rewrite format_point_out_of_range in Etext by lia; discriminate. }
  unfold MAXSIZE in Hr, Hc.
  pose proof round_trip_coord_table as T.
  rewrite forallb_forall in T.
  specialize (T (size b) (In_Zrange 2 24 (size b) ltac:(lia))).
  rewrite forallb_forall in T.
  specialize (T row (In_Zrange 1 24 row ltac:(lia))).
  rewrite forallb_forall in T.
  specialize (T col (In_Zrange 1 24 col ltac:(lia))).
  replace ((row <=? size b) && (col <=? size b)) with true in T by lia.
  cbn [negb orb] in T. unfold round_trip_coord in T. rewrite Etext in T.
  unfold move_as_point. rewrite !move_to_coord_lower.
  destruct (move_to_coord text (size b)) as [[[row' col']|]|];
    try discriminate.
  apply andb_prop in T as [Er Ec]. apply Z.eqb_eq in Er, Ec. subst row' col'.
  f_equal. unfold NS, row, col.
  pose proof (Z.div_mod move (size b + 1)). lia.
Qed.

(** X10.  [genmove] plays the move the solver found. On a board of a
    supported size whose empty cells are points of the grid, when the
    engine proposes a move and [solve] returns one, the move returned
    names a legal move of the side to move; [genmove] hands that point to
    [play_move] with the colour it was asked for and answers the notation.
    When that colour is the side to move the stone is placed, and with a
    hash free of collisions the move wins. *)
Theorem genmove_cmd_plays_found_move (a0 : string) (rest : list string)
  (c c1 : GtpConnection) (color : Z) (proposal found : string) :
  2 <= size (live_board c) <= MAXSIZE ->
  on_grid (live_board c) ->
  color_to_int (Py.lower a0) = Some color ->
  get_move (live_board c) color = Some proposal ->
  solve_cmd calls_per_second ["genmove"%string] c = Returns (Some found) c1 ->
  exists move text,
    In move (generate_legal_moves (live_board c)
               (current_player (live_board c)))
    /\ format_point (point_to_coord (Some move) (size (live_board c)))
       = Ok text
    /\ found = Py.lower text
    /\ genmove_cmd calls_per_second get_move is_legal (a0 :: rest) c
       = Done ()
           (respond
              (with_live_board c1 (play_move (live_board c) move color).2)
              found)
    /\ (color = current_player (live_board c) ->
        (play_move (live_board c) move color).2
        = played (live_board c) move color)
    /\ (collision_free -> winning_move (live_board c) move = true).
Proof.
  intros Hsize Hgrid Ecolor Eproposal Esolve.
  pose proof Esolve as Efound. apply solve_cmd_found in Efound.
  destruct Efound as (move & sm & ch & s1 & text & Hin & Hsm & Hsound & Ech
                      & Erec & Etext & -> & Hlive & _).
  pose proof Ech as Eplay. apply child_Some in Eplay as [Eplay Ech'].
  rewrite Hsm in Eplay.
  pose proof Eplay as Hlegal.
  apply play_move_legal in Hlegal as (Hmove & Hcell & _ & Eb).
  destruct (Hgrid move Hmove Hcell) as [Hrow Hcol].
  exists move, text.
  split; [done |]. split; [done |]. split; [done |]. split; [| split].
  - unfold genmove_cmd. rewrite Ecolor, Eproposal, Esolve, Hlive.
    rewrite (found_move_as_point _ _ _ Hsize Hmove Hrow Hcol Etext).
    rewrite lower_idempotent.
    by destruct (play_move (live_board c) move color).
  - intros ->. by rewrite Eplay, <- Eb.
  - intros Hfree. unfold winning_move. rewrite Eplay. simpl.
    eapply boolean_negamax_tt_value in Erec as [Hvalue _];
      [| done | rewrite Ech'; by apply Hsound].
    by rewrite <- Hvalue.
Qed.

(** X11.  [solve] and [genmove] end: with the fuel [solve_cmd] gives it
    the search never runs out, so [solve_cmd] returns or is left by an
    exception, and so does [genmove_cmd], which calls it. *)
Theorem solve_and_genmove_terminate (args : list string)
  (c : GtpConnection) :
  solve_cmd calls_per_second args c <> OutOfFuel
  /\ genmove_cmd calls_per_second get_move is_legal args c <> Unfinished.
Proof.
  split; [apply solve_cmd_ends |].
  pose proof (solve_cmd_ends calls_per_second ["genmove"%string] c) as Hends.
  unfold genmove_cmd.
  destruct args as [|a0 rest]; [done |].
  destruct (color_to_int _) as [color|]; [|done].
  destruct (get_move _ _) as [proposal|]; [|done].
  destruct (solve_cmd _ _ _) as [[found|] c1|e c1|]; [| | done | done].
  - destruct (move_as_point _ _); [|done]. by destruct (play_move _ _ _).
  - destruct (move_as_point _ _); [|done].
    destruct (is_legal _ _ _); [|done]. by destruct (play_move _ _ _).
Qed.

End Genmove.

(** [genmove] with an engine that proposes nothing. *)
Lemma genmove_cmd_resign_keeps_board_witness :
  let c := connection (NoGo.empty_board 2) 1 in
  live_board
    (default c
       (connection_of
          (genmove_cmd 1000 (fun _ _ => None) (fun _ _ _ => true)
             ["b"%string] c)))
  = live_board c.
Proof.
  intros c.
  apply (genmove_cmd_resign_keeps_board 1000
           (fun _ _ => None) (fun _ _ _ => true) ["b"%string] c).
  - reflexivity.
  - reflexivity.
Defined.

(** [genmove b] on the empty 2x2 board: the solver finds a1 and the
    stone is placed there. *)
Lemma genmove_cmd_plays_found_move_witness :
  let c := connection (NoGo.empty_board 2) 1 in
  let get_move := fun (_ : GoBoard) (_ : Z) => Some "b2"%string in
  let is_legal := fun (_ : GoBoard) (_ _ : Z) => true in
  exists c1 move text,
    solve_cmd 1000 ["genmove"%string] c = Returns (Some "a1"%string) c1
    /\ In move (generate_legal_moves (NoGo.empty_board 2) BLACK)
    /\ format_point (point_to_coord (Some move) 2) = Ok text
    /\ "a1"%string = Py.lower text
    /\ genmove_cmd 1000 get_move is_legal ["b"%string] c
       = Done ()
           (respond
              (with_live_board c1
                 (play_move (NoGo.empty_board 2) move BLACK).2)
              "a1")
    /\ (play_move (NoGo.empty_board 2) move BLACK).2
       = played (NoGo.empty_board 2) move BLACK.
Proof.
  intros c get_move is_legal.
  assert (value_of (solve_cmd 1000 ["genmove"%string] c)
          = Some (Some "a1"%string)) as Hfound by (vm_compute; reflexivity).
  apply value_of_Some in Hfound as [c1 Hc1].
  destruct (genmove_cmd_plays_found_move (H0 := nogo_laws) 1000 get_move
              is_legal "b" [] c c1 BLACK "b2" "a1")
    as (move & text & Hin & Htext & Hlower & Hgenmove & Hplayed & _).
  - unfold MAXSIZE. simpl. lia.
  - apply empty_board_on_grid. lia.
  - reflexivity.
  - reflexivity.
  - exact Hc1.
  - exists c1, move, text. split; [exact Hc1 |]. split; [exact Hin |].
    split; [exact Htext |]. split; [exact Hlower |].
    split; [exact Hgenmove |]. apply Hplayed. reflexivity.
Defined.

(** [solve] and [genmove] on the empty 2x2 board. *)
Lemma solve_and_genmove_terminate_witness :
  let c := connection (NoGo.empty_board 2) 1 in
  solve_cmd 1000 [] c <> OutOfFuel
  /\ genmove_cmd 1000 (fun _ _ => Some "b2"%string) (fun _ _ _ => true)
       ["b"%string] c <> Unfinished.
Proof.
  exact (solve_and_genmove_terminate (H0 := nogo_laws) 1000
           (fun _ _ => Some "b2"%string) (fun _ _ _ => true) ["b"%string]
           (connection (NoGo.empty_board 2) 1)).
Defined.

(** ** The end of the game *)

Section Final.

Context `{BoardOps}.

Variable calls_per_second : nat.

(** X12.  At the end of the game [gogui_rules_final_result] and [solve]
    name the same winner, the opponent of the side to move.  When the
    side to move, Black or White, has no legal move and the alarm does
    not go off at once, the position is lost for the side to move,
    [gogui_rules_final_result_cmd] answers the name of the other colour,
    and [solve_cmd] answers the letter of that colour, returns no move
    and leaves the alarm pending with one call counted. *)
Theorem final_result_agrees_with_solve (args : list string)
  (c : GtpConnection) :
  current_player (live_board c) = BLACK
  \/ current_player (live_board c) = WHITE ->
  generate_legal_moves (live_board c) (current_player (live_board c)) = [] ->
  signal_alarm calls_per_second (timelimit c) <> Some O ->
  let winner := opponent (current_player (live_board c)) in
  let name := if winner =? BLACK then "black"%string else "white"%string in
  let letter := if winner =? BLACK then "b"%string else "w"%string in
  let pending := Nat.pred <$> signal_alarm calls_per_second (timelimit c) in
  (winner = BLACK \/ winner = WHITE)
  /\ winner <> current_player (live_board c)
  /\ gogui_rules_final_result_cmd args c = Done () (respond c name)
  /\ solve_cmd calls_per_second [] c
     = Returns None (respond (with_pending_alarm c pending) letter)
  /\ value (live_board c) = false.
Proof.
  intros Hplayer Hover Halarm winner name letter pending.
  assert (deliver (mkSearch (live_board c) [] ∅
                     (signal_alarm calls_per_second (timelimit c)))
          = Returns ()
              (mkSearch (live_board c) [] ∅ pending)) as Ed.
  { unfold deliver, pending. simpl.
    by destruct (signal_alarm calls_per_second (timelimit c)) as [[|k]|]. }
  split; [destruct Hplayer as [E | E]; unfold winner; rewrite E;
          [by right | by left] |].
  split; [destruct Hplayer as [E | E]; unfold winner; rewrite E;
          discriminate |].
  split.
  { unfold gogui_rules_final_result_cmd, name, winner. rewrite Hover.
    by destruct Hplayer as [-> | ->]. }
  split.
  - unfold solve_cmd, search_fuel, copy, tt_clear.
    cbn -[deliver]. rewrite Ed. cbn -[deliver]. unfold tt_lookup.
    rewrite lookup_empty, Hover. simpl.
    unfold letter, winner. destruct Hplayer as [-> | ->]; reflexivity.
  - unfold value, search_fuel. simpl. by rewrite Hover.
Qed.

End Final.

(** The two commands on [lost_2x2], where White is to move and has no
    legal move: Black is named by both. *)
Lemma final_result_agrees_with_solve_witness :
  gogui_rules_final_result_cmd [] (connection lost_2x2 1)
  = Done () (respond (connection lost_2x2 1) "black")
  /\ solve_cmd 1000 [] (connection lost_2x2 1)
     = Returns None
         (respond (with_pending_alarm (connection lost_2x2 1) (Some 999%nat))
            "b")
  /\ value lost_2x2 = false.
Proof.
  destruct (final_result_agrees_with_solve 1000 [] (connection lost_2x2 1))
    as (_ & _ & Hfinal & Hsolve & Hvalue).
  - right. reflexivity.
  - vm_compute. reflexivity.
  - vm_compute. discriminate.
  - split; [exact Hfinal |]. split; [exact Hsolve | exact Hvalue].
Defined.

(** ** The dispatcher *)

Lemma list_ascii_of_string_app (s t : string) :
  list_ascii_of_string (s +:+ t)
  = list_ascii_of_string s ++ list_ascii_of_string t.
Proof. induction s as [|a s IH]; simpl; [done | by rewrite IH]. Qed.

Lemma lstrip_chars_nil (chars l : list ascii) :
  Text.lstrip_chars chars l = []
  <-> forallb (fun c => existsb (Ascii.eqb c) chars) l = true.
Proof.
  induction l as [|c l IH]; simpl; [done |].
  destruct (existsb (Ascii.eqb c) chars); simpl; [done |].
  split; discriminate.
Qed.

Lemma lstrip_chars_kept (chars l : list ascii) :
  forallb (fun c => existsb (Ascii.eqb c) chars) (Text.lstrip_chars chars l)
  = forallb (fun c => existsb (Ascii.eqb c) chars) l.
Proof.
  induction l as [|c l IH]; simpl; [done |].
  destruct (existsb (Ascii.eqb c) chars) eqn:E; simpl; [done |].
  by rewrite E.
Qed.

Lemma forallb_rev {A : Type} (f : A -> bool) (l : list A) :
  forallb f (rev l) = forallb f l.
Proof.
  induction l as [|x l IH]; simpl; [done |].
  rewrite forallb_app, IH. simpl. destruct (f x), (forallb f l); done.
Qed.

(** [strip] leaves nothing exactly of the texts made of the characters it
    strips. *)
Lemma strip_chars_nil (chars l : list ascii) :
  Text.strip_chars chars l = []
  <-> forallb (fun c => existsb (Ascii.eqb c) chars) l = true.
Proof.
  unfold Text.strip_chars. rewrite <- (lstrip_chars_kept chars l).
  rewrite <- (forallb_rev _ (Text.lstrip_chars chars l)).
  rewrite <- lstrip_chars_nil.
  split; [| by intros ->].
  intros E. apply (f_equal (@rev ascii)) in E.
  by rewrite rev_involutive in E.
Qed.

Lemma blank_is_space (c : ascii) :
  existsb (Ascii.eqb c) blank_chars = true -> Py.is_space c = true.
Proof.
  unfold blank_chars. simpl. rewrite !orb_true_iff.
  intros [E|[E|[E|E]]]; [| | | discriminate];
    apply Ascii.eqb_eq in E; by subst.
Qed.

Lemma space_is_no_digit (c : ascii) :
  Py.is_space c = true -> Py.is_digit c = false /\ Ascii.eqb c "#" = false.
Proof.
  destruct (Ascii.eqb_spec c "#") as [->|_]; [discriminate |].
  unfold Py.is_space, Py.is_digit. lia.
Qed.

Lemma digit_is_no_blank (c : ascii) :
  Py.is_digit c = true ->
  existsb (Ascii.eqb c) blank_chars = false /\ Ascii.eqb c "#" = false.
Proof.
  intros Hd. split.
  - destruct (existsb _ _) eqn:E; [|done].
    apply blank_is_space, space_is_no_digit in E as [E _]. congruence.
  - destruct (Ascii.eqb_spec c "#") as [->|_]; [discriminate | done].
Qed.

(** [split] finds no word in white space. *)
Lemma split_words_spaces (l : list ascii) :
  forallb Py.is_space l = true -> Text.split_words [] l = [].
Proof.
  induction l as [|c l IH]; simpl; [done |].
  destruct (Py.is_space c); [by simpl | discriminate].
Qed.

(** [split] does not see white space in front. *)
Lemma split_words_lstrip (l : list ascii) :
  Text.split_words [] (Py.lstrip l) = Text.split_words [] l.
Proof.
  induction l as [|c l IH]; simpl; [done |].
  destruct (Py.is_space c) eqn:E; [done |]. simpl. by rewrite E.
Qed.

Lemma drop_digits_app (digits rest : list ascii) :
  forallb Py.is_digit digits = true ->
  match rest with
  | first :: _ => Py.is_digit first = false
  | [] => True
  end ->
  Text.drop_digits (digits ++ rest) = rest.
Proof.
  intros Hd Hrest. induction digits as [|d digits IH]; simpl in *.
  - destruct rest as [|first rest]; [done |]. simpl. by rewrite Hrest.
  - apply andb_prop in Hd as [-> Hd]. by apply IH.
Qed.

(** [split] reads a word to its end. *)
Lemma split_words_word (w word l : list ascii) :
  forallb (fun c => negb (Py.is_space c)) w = true ->
  Text.split_words word (w ++ l) = Text.split_words (rev w ++ word) l.
Proof.
  revert word. induction w as [|c w IH]; intros word Hw; [done |].
  simpl in Hw. apply andb_prop in Hw as [Hc Hw]. simpl.
  destruct (Py.is_space c); [discriminate |].
  rewrite IH by done. by rewrite <- app_assoc.
Qed.

Lemma word_read (name : string) :
  is_word name = true ->
  exists c word,
    rev (list_ascii_of_string name) = c :: word
    /\ string_of_list_ascii (rev (c :: word)) = name
    /\ forallb (fun c => negb (Py.is_space c)) (list_ascii_of_string name)
       = true.
Proof.
  unfold is_word. intros Hword. apply andb_prop in Hword as [Hsome Hchars].
  destruct (rev (list_ascii_of_string name)) as [|c word] eqn:Erev.
  - apply (f_equal (@rev ascii)) in Erev. rewrite rev_involutive in Erev.
    apply (f_equal string_of_list_ascii) in Erev.
    rewrite string_of_list_ascii_of_string in Erev. by subst.
  - exists c, word. split; [done |]. split; [| done].
    by rewrite <- Erev, rev_involutive, string_of_list_ascii_of_string.
Qed.

(** [split] undoes [join]: words joined by single spaces are found
    again. *)
Lemma split_join (names : list string) :
  forallb is_word names = true ->
  Text.split (Text.join " " names) = names.
Proof.
  unfold Text.split. induction names as [|name names IH]; [done |].
  intros Hnames. simpl in Hnames. apply andb_prop in Hnames as [Hname Hnames].
  destruct (word_read name Hname) as (c & word & Erev & Ename & Hchars).
  destruct names as [|name' names].
  - simpl. rewrite <- (app_nil_r (list_ascii_of_string name)).
    rewrite split_words_word by done. rewrite app_nil_r, Erev. simpl.
    simpl in Ename. by rewrite Ename.
  - change (Text.join " " (name :: name' :: names))
      with (name +:+ " " +:+ Text.join " " (name' :: names)).
    rewrite list_ascii_of_string_app, split_words_word by done.
    rewrite app_nil_r, Erev.
    change (list_ascii_of_string (" " +:+ Text.join " " (name' :: names)))
      with (" "%char :: list_ascii_of_string (Text.join " " (name' :: names))).
    simpl Text.split_words at 1.
    simpl in Ename. rewrite Ename. f_equal. by apply IH.
Qed.

Lemma command_known (name : string) (table : list (string * handler)) :
  is_Some (command name table) <-> In name (map fst table).
Proof.
  induction table as [|[key h] table IH]; simpl.
  - split; [by intros [? ?] | done].
  - destruct (String.eqb_spec key name) as [->|Hne].
    + split; [by left | by eexists].
    + rewrite IH. split; [by right | by intros [? | ?]].
Qed.

Section Dispatch.

Variable commands : list (string * handler).

(** X13.  [get_cmd] skips empty lines and comments: a line of white space
    only, or whose first character is [#], runs no command and writes
    nothing. *)
Theorem get_cmd_skips_blank_and_comment (line : string)
  (c : GtpConnection) :
  forallb Py.is_space (list_ascii_of_string line) = true
  \/ (exists rest, line = String "#" rest) ->
  get_cmd commands line c = Done () c.
Proof.
  unfold get_cmd, command_words. intros [Hblank | [rest ->]].
  - destruct (Text.strip_chars _ _); [done |].
    destruct (list_ascii_of_string line) as [|first tail]; [done |].
    simpl in Hblank. apply andb_prop in Hblank as [Hfirst Htail].
    destruct (space_is_no_digit _ Hfirst) as [-> ->].
    simpl. rewrite Hfirst. simpl. by rewrite split_words_spaces.
  - simpl. by destruct (Text.strip_chars _ _).
Qed.

(** X14.  The number in front of a command is not part of it: a line that
    starts with digits is executed as the line without them, when what
    follows the digits does not start with [#]. *)
Theorem get_cmd_ignores_number (digits rest : string) (c : GtpConnection) :
  digits <> EmptyString ->
  forallb Py.is_digit (list_ascii_of_string digits) = true ->
  match rest with
  | String first _ => Py.is_digit first = false /\ first <> "#"%char
  | EmptyString => True
  end ->
  get_cmd commands (digits +:+ rest) c = get_cmd commands rest c.
Proof.
  intros Hsome Hdigits Hrest. unfold get_cmd.
  assert (command_words (digits +:+ rest)
          = Some (Text.split_words [] (list_ascii_of_string rest))) as ->.
  { unfold command_words. rewrite list_ascii_of_string_app.
    destruct digits as [|d digits]; [done |].
    change (list_ascii_of_string (String d digits))
      with (d :: list_ascii_of_string digits) in *.
    pose proof Hdigits as Hall.
    cbn [forallb] in Hdigits. apply andb_prop in Hdigits as [Hd Hdigits].
    destruct (digit_is_no_blank d Hd) as [Hblank Hcomment].
    rewrite <- app_comm_cons.
    destruct (Text.strip_chars _ _) eqn:Estrip.
    { apply strip_chars_nil in Estrip. rewrite forallb_forall in Estrip.
      specialize (Estrip d (or_introl eq_refl)). congruence. }
    rewrite Hcomment, Hd, app_comm_cons.
    rewrite drop_digits_app, split_words_lstrip; [done | done |].
    destruct rest as [|first rest]; [done |]. simpl. tauto. }
  unfold command_words.
  destruct (Text.strip_chars _ _) eqn:Estrip.
  { apply strip_chars_nil in Estrip.
    rewrite split_words_spaces; [done |].
    apply forallb_forall. intros x Hx.
    rewrite forallb_forall in Estrip. by apply blank_is_space, Estrip. }
  destruct rest as [|first rest]; [done |]. simpl in *.
  destruct Hrest as [-> Hcomment].
  destruct (Ascii.eqb_spec first "#"); [done |]. reflexivity.
Qed.

(** X15.  [known_command] agrees with [list_commands]: when the names of
    the commands are words, splitting the answer of [list_commands_cmd]
    gives the names back, and [known_command_cmd] answers "true" exactly
    for the words of that answer. *)
Theorem known_command_agrees_with_list_commands (name : string)
  (rest : list string) (c : GtpConnection) :
  forallb is_word (map fst commands) = true ->
  exists listing,
    list_commands_cmd commands [] c = Done () (respond c listing)
    /\ Text.split listing = map fst commands
    /\ known_command_cmd commands (name :: rest) c
       = Done ()
           (respond c
              (if bool_decide (name ∈ Text.split listing)
               then "true" else "false")).
Proof.
  intros Hwords. eexists. split; [reflexivity |].
  rewrite split_join by done. split; [done |]. unfold known_command_cmd.
  pose proof (command_known name commands) as Hknown.
  destruct (command name commands) as [h|].
  - rewrite bool_decide_eq_true_2; [done |].
    apply list_elem_of_In, Hknown. by eexists.
  - rewrite bool_decide_eq_false_2; [done |].
    intros Hin. apply list_elem_of_In, Hknown in Hin. by destruct Hin.
Qed.

End Dispatch.

(** A comment line. *)
Lemma get_cmd_skips_blank_and_comment_witness :
  get_cmd [("play", play_cmd)]%string "# play b a1"
    (connection (NoGo.empty_board 2) 1)
  = Done () (connection (NoGo.empty_board 2) 1).
Proof.
  apply (get_cmd_skips_blank_and_comment [("play", play_cmd)]%string
           "# play b a1" (connection (NoGo.empty_board 2) 1)).
  right. exists " play b a1"%string. reflexivity.
Defined.

(** A numbered line of a regression test. *)
Lemma get_cmd_ignores_number_witness :
  get_cmd [("play", play_cmd)]%string ("10" +:+ " play b a1")
    (connection (NoGo.empty_board 2) 1)
  = get_cmd [("play", play_cmd)]%string " play b a1"
      (connection (NoGo.empty_board 2) 1).
Proof.
  apply (get_cmd_ignores_number [("play", play_cmd)]%string "10"
           " play b a1" (connection (NoGo.empty_board 2) 1)).
  - discriminate.
  - reflexivity.
  - split; [reflexivity | discriminate].
Defined.

(** The numbered line is executed: the stone is on a1. *)
Example get_cmd_numbered_play :
  (fun c => board (live_board c) !! 4%nat)
  <$> connection_of
        (get_cmd [("play", play_cmd)]%string "10 play b a1"
           (connection (NoGo.empty_board 2) 1))
  = Some (Some BLACK).
Proof. vm_compute. reflexivity. Qed.

(** A table of three commands. *)
Lemma known_command_agrees_with_list_commands_witness :
  let commands :=
    [("play", play_cmd);
     ("gogui_rules_side_to_move_cmd", gogui_rules_side_to_move_cmd);
     ("gogui-rules_final_result", gogui_rules_final_result_cmd)]%string in
  let c := connection (NoGo.empty_board 2) 1 in
  exists listing,
    list_commands_cmd commands [] c = Done () (respond c listing)
    /\ Text.split listing = map fst commands
    /\ known_command_cmd commands ["play"%string] c
       = Done ()
           (respond c
              (if bool_decide ("play"%string ∈ Text.split listing)
               then "true" else "false")).
Proof.
  intros commands c.
  apply (known_command_agrees_with_list_commands commands "play" [] c).
  reflexivity.
Defined.

(** ** The picture of the board *)

Lemma string_app_assoc (s t u : string) : (s +:+ t) +:+ u = s +:+ t +:+ u.
Proof.
  induction s as [|a s IH]; [done |].
  change (String a ((s +:+ t) +:+ u) = String a (s +:+ t +:+ u)).
  by rewrite IH.
Qed.

Lemma string_app_empty (s : string) : s +:+ EmptyString = s.
Proof.
  induction s as [|a s IH]; [done |].
  change (String a (s +:+ EmptyString) = String a s). by rewrite IH.
Qed.

Lemma Zrange_length (lo : Z) (n : nat) : length (Zrange lo n) = n.
Proof. unfold Zrange. by rewrite length_map, length_seq. Qed.

Lemma cell_symbol_drawn (cell : Z) (symbol : ascii) :
  cell_symbol cell = Some symbol -> In symbol board_symbols.
Proof.
  unfold cell_symbol, board_symbols.
  repeat destruct (_ =? _); intros [= <-]; simpl; tauto.
Qed.

(** The inner loop appends one symbol for each column, or is left by the
    [IndexError] of the array or by the failed [assert]. *)
Lemma board_row_shape (b : GoBoard) (start : Z) (columns : list Z)
  (text : string) :
  match board_row b start columns text with
  | Ok text' =>
      exists row,
        text' = text +:+ row
        /\ String.length row = length columns
        /\ Forall (fun symbol => In symbol board_symbols)
                  (list_ascii_of_string row)
  | Raise e => e = IndexError \/ e = AssertionError
  end.
Proof.
  revert text. induction columns as [|i columns IH]; intros text; simpl.
  - exists EmptyString. by rewrite string_app_empty.
  - destruct (Py.index _ _) as [cell|]; [| by left].
    destruct (cell_symbol cell) as [symbol|] eqn:Esymbol; [| by right].
    specialize (IH (text +:+ String symbol EmptyString)).
    destruct (board_row _ _ _ _) as [text'|e]; [| done].
    destruct IH as (row & -> & Hlength & Hsymbols).
    exists (String symbol row). rewrite string_app_assoc. simpl.
    split; [done |]. split; [by rewrite Hlength |].
    constructor; [by eapply cell_symbol_drawn | done].
Qed.

Section Picture.

Variable row_start : GoBoard -> Z -> Z.

Lemma board_rows_shape (b : GoBoard) (rows : list Z) (text : string) :
  match board_rows row_start b rows text with
  | Ok text' =>
      exists lines,
        text' = text +:+ board_text lines
        /\ length lines = length rows
        /\ Forall (fun row =>
                     String.length row = Z.to_nat (size b)
                     /\ Forall (fun symbol => In symbol board_symbols)
                               (list_ascii_of_string row)) lines
  | Raise e => e = IndexError \/ e = AssertionError
  end.
Proof.
  revert text. induction rows as [|row rows IH]; intros text; simpl.
  - exists []. simpl. by rewrite string_app_empty.
  - pose proof (board_row_shape b (row_start b (row + 1))
                  (Zrange 0 (Z.to_nat (size b))) text) as Hrow.
    destruct (board_row _ _ _ _) as [text1|e]; [| done].
    destruct Hrow as (line & -> & Hlength & Hsymbols).
    specialize (IH ((text +:+ line) +:+ newline)).
    destruct (board_rows _ _ _ _) as [text'|e]; [| done].
    destruct IH as (lines & -> & Hcount & Hlines).
    exists (line :: lines). simpl. rewrite !string_app_assoc.
    split; [done |]. split; [by rewrite Hcount |].
    constructor; [| done]. by rewrite Hlength, Zrange_length.
Qed.

(** X16.  [gogui_rules_board] draws the grid and nothing else. When the
    command answers, the answer is as many lines as the board has rows,
    each of as many symbols as the board has columns, all of them X, O or
    a dot; otherwise it is left by the [IndexError] of the array or by the
    failed [assert] on a cell that is neither a stone nor empty, and
    nothing was written. *)
Theorem gogui_rules_board_cmd_shape (args : list string)
  (c : GtpConnection) :
  match gogui_rules_board_cmd row_start args c with
  | Done _ c' =>
      exists lines,
        c' = respond c (board_text lines)
        /\ length lines = Z.to_nat (size (live_board c))
        /\ Forall (fun row =>
                     String.length row = Z.to_nat (size (live_board c))
                     /\ Forall (fun symbol => In symbol board_symbols)
                               (list_ascii_of_string row)) lines
  | Failed e c' =>
      c' = c /\ (e = Raised IndexError \/ e = Raised AssertionError)
  | Unfinished => False
  end.
Proof.
  unfold gogui_rules_board_cmd.
  pose proof (board_rows_shape (live_board c)
                (rev (Zrange 0 (Z.to_nat (size (live_board c)))))
                EmptyString) as Hrows.
  destruct (board_rows _ _ _ _) as [text|e].
  - destruct Hrows as (lines & -> & Hcount & Hlines).
    exists lines. split; [done |]. split; [| done].
    by rewrite Hcount, length_rev, Zrange_length.
  - split; [done |]. destruct Hrows as [-> | ->]; [by left | by right].
Qed.

End Picture.

(** The picture of a 2x2 board after Black a1, White b2, with the rows of
    the array starting at [row * NS + 1]. *)
Example gogui_rules_board_cmd_2x2 :
  (b ← NoGo.play_cmds (NoGo.empty_board 2) [(BLACK, (1, 1)); (WHITE, (2, 2))];
   last_response <$>
     connection_of
       (gogui_rules_board_cmd (fun b row => row * NS b + 1) []
          (connection b 1)))
  = Some (Some ("= " +:+ board_text [".O"; "X."]%string
                +:+ newline +:+ newline)).
Proof. vm_compute. reflexivity. Qed.
